(** * webbrain-parser: the experiment-script parser, embedded and verified

    The development follows [src/parser.v2.js] (and its TypeScript twin
    [src/parser.v2.ts]) function by function: the class [Parser] becomes the
    module [Parser], a method that mutates [this] becomes a function from
    parser states to parser states, and a [throw] becomes the [Throw] branch
    of the [result] type.  The older variant of the same class, also kept in
    the repository, is embedded in the module [LegacyParser] for the methods
    whose behaviour differs.

    Conventions.
    - A JavaScript string is the [string] of the bytes of its UTF-8
      encoding.  The split and pair characters are ASCII in every call of
      the source, so a loop over the bytes cuts the same tokens as the loop
      over the characters.
    - A slot obtained by array destructuring is a [token]: [None] stands for
      [undefined] (the array was too short).
    - A plain object used as a dictionary ([this.stimulus], [this.sequences])
      is a [gmap string _] in [Parser] and in the sequence decoding of
      [LegacyParser]: the map of its own properties,
      which is all the object is for every identifier that is neither
      [__proto__], nor a member of [Object.prototype], nor a property name
      of a stimulus object.  The module [PlainObject] has the object with
      its prototype, and [ObjectParser] the store and the lookup of
      [Parser] on it, for all identifiers; the two are proved to agree on
      the identifiers above.
    - Numeric conversions ([+x], [x * 1], [parseInt(x)]) are kept symbolic:
      no property below depends on the floating-point value. *)

From Stdlib Require Import Ascii String.
From stdpp Require Import gmap strings list fin_maps.

(** ** Values *)

Definition token : Type := option string.

Inductive number : Type :=
| ToNumber (operand : token)   (* [+operand], [operand * 1] *)
| ParseInt (operand : token).  (* [parseInt(operand)] *)

(** [!!x] for a destructured slot: [undefined] and the empty string are
    falsy, every other string is truthy. *)
Definition truthy (x : token) : bool :=
  match x with
  | Some EmptyString | None => false
  | Some _ => true
  end.

(** A value used as a property key is converted to a string. *)
Definition propertyKey (x : token) : string :=
  match x with
  | Some s => s
  | None => "undefined"
  end.

(** ** Exceptions *)

Inductive Error : Type :=
| SectionNotFound (keyword : string)
| InvalidStimulusType (stimulusType : token)
| UnknownStimulusIdentifier (stimulusIdentifier : string)
| InvalidFeedbackType (feedbackType : token)
| TypeError.  (* a method called on [undefined] *)

Inductive result (A : Type) : Type :=
| Ok (a : A)
| Throw (e : Error).
Arguments Ok {A} a.
Arguments Throw {A} e.

#[global] Instance result_ret : MRet result := λ A a, Ok a.
#[global] Instance result_bind : MBind result := λ A B f m,
  match m with
  | Ok a => f a
  | Throw e => Throw e
  end.

(** ** Built-in string and array methods *)

(** [s.split(separator)] for a one-character separator. *)
Fixpoint split (separator : ascii) (s : string) : list string :=
  match s with
  | EmptyString => [EmptyString]
  | String c rest =>
      if decide (c = separator) then EmptyString :: split separator rest
      else match split separator rest with
           | w :: ws => String c w :: ws
           | [] => [String c EmptyString]
           end
  end.

(** The white-space and line-terminator characters that [trim] removes, each
    as the bytes of its UTF-8 encoding: U+0009 to U+000D, U+0020, U+00A0,
    U+1680, U+2000 to U+200A, U+2028, U+2029, U+202F, U+205F, U+3000 and
    U+FEFF. *)
Definition utf8 (bytes : list nat) : string :=
  foldr (λ n s, String (ascii_of_nat n) s) EmptyString bytes.

Definition whiteSpace : list string :=
  utf8 <$> [[9]; [10]; [11]; [12]; [13]; [32]; [194; 160]; [225; 154; 128];
            [226; 128; 128]; [226; 128; 129]; [226; 128; 130];
            [226; 128; 131]; [226; 128; 132]; [226; 128; 133];
            [226; 128; 134]; [226; 128; 135]; [226; 128; 136];
            [226; 128; 137]; [226; 128; 138]; [226; 128; 168];
            [226; 128; 169]; [226; 128; 175]; [226; 129; 159];
            [227; 128; 128]; [239; 187; 191]].

(** What follows [prefix] in [s], when [s] starts with it. *)
Fixpoint stripPrefix (prefix s : string) : option string :=
  match prefix with
  | EmptyString => Some s
  | String a prefix' =>
      match s with
      | EmptyString => None
      | String b s' => if decide (a = b) then stripPrefix prefix' s' else None
      end
  end.

(** [s] without its first character, when that is one of [characters]. *)
Definition stripOne (characters : list string) (s : string) : option string :=
  foldr (λ c found,
           match stripPrefix c s with
           | Some rest => Some rest
           | None => found
           end) None characters.

(** [s] without its leading [characters]; the length of [s] is fuel enough. *)
Fixpoint stripLeading (characters : list string) (fuel : nat) (s : string)
    : string :=
  match fuel with
  | 0 => s
  | S fuel' =>
      match stripOne characters s with
      | Some rest => stripLeading characters fuel' rest
      | None => s
      end
  end.

Fixpoint reverse (s : string) : string :=
  match s with
  | EmptyString => EmptyString
  | String c rest => reverse rest +:+ String c EmptyString
  end.

Definition trimStart (s : string) : string :=
  stripLeading whiteSpace (String.length s) s.

Definition trimEnd (s : string) : string :=
  reverse (stripLeading (reverse <$> whiteSpace) (String.length s) (reverse s)).

Definition trim (s : string) : string := trimEnd (trimStart s).

(** [l.slice(start, end)] for non-negative indices. *)
Definition slice {A : Type} (start end_ : nat) (l : list A) : list A :=
  drop start (take end_ l).

(** [c] occurs in [s]. *)
Fixpoint occurs (c : ascii) (s : string) : bool :=
  match s with
  | EmptyString => false
  | String c' rest => bool_decide (c' = c) || occurs c rest
  end.

(** ** Plain objects used as dictionaries

    [this.stimulus = {}] is an object with a prototype.  The read
    [this.stimulus[key]] that finds no own property goes on along the
    prototype chain; the write [this.stimulus[key] = o] creates or replaces
    an own property, except for the key [__proto__]: [Object.prototype]
    holds a setter under that name, which makes [o] the prototype of
    [this.stimulus] and creates no property.  The objects stored are built
    by object literals that name their properties, so none of them has an
    own property [__proto__], and the prototype of each is
    [Object.prototype]. *)

Module PlainObject.

(** The names under which [Object.prototype] holds a function. *)
Definition objectPrototypeMembers : list string :=
  ["constructor"; "__defineGetter__"; "__defineSetter__"; "hasOwnProperty";
   "__lookupGetter__"; "__lookupSetter__"; "isPrototypeOf";
   "propertyIsEnumerable"; "toString"; "valueOf"; "toLocaleString"].

(** What a read can return, [Entity] being the objects stored. *)
Inductive Value (Entity : Type) : Type :=
| VObject (o : Entity)
| VString (s : string)
| VBoolean (b : bool)
| VNumber (n : number)
| VNull
| VUndefined
| VFunction (name : string)   (* the member [name] of [Object.prototype] *)
| VObjectPrototype.           (* [Object.prototype] itself *)
Arguments VObject {Entity} o.
Arguments VString {Entity} s.
Arguments VBoolean {Entity} b.
Arguments VNumber {Entity} n.
Arguments VNull {Entity}.
Arguments VUndefined {Entity}.
Arguments VFunction {Entity} name.
Arguments VObjectPrototype {Entity}.

(** The own properties of the object and its prototype: [None] is
    [Object.prototype], [Some o] an object stored by an assignment to
    [__proto__]. *)
Record Dictionary (Entity : Type) : Type := mkDictionary {
  own : gmap string Entity;
  prototype : option Entity;
}.
Arguments mkDictionary {Entity} own prototype.
Arguments own {Entity} d.
Arguments prototype {Entity} d.

(** [{}] *)
Definition empty {Entity : Type} : Dictionary Entity := mkDictionary ∅ None.

Section Access.

Context {Entity : Type}.

(** The own properties of a stored object: [None] when it has no property
    of that name. *)
Variable properties : Entity → string → option (Value Entity).

(** The end of the chain: the getter under [__proto__] returns the prototype
    of the object the read started from. *)
Definition fromObjectPrototype (d : Dictionary Entity) (key : string)
    : Value Entity :=
  if decide (key = "__proto__") then
    match prototype d with
    | Some o => VObject o
    | None => VObjectPrototype
    end
  else if decide (key ∈ objectPrototypeMembers) then VFunction key
  else VUndefined.

(** [d[key]] *)
Definition get (d : Dictionary Entity) (key : string) : Value Entity :=
  match own d !! key with
  | Some o => VObject o
  | None =>
      match prototype d with
      | Some o =>
          match properties o key with
          | Some v => v
          | None => fromObjectPrototype d key
          end
      | None => fromObjectPrototype d key
      end
  end.

(** [d[key] = o] *)
Definition set (d : Dictionary Entity) (key : string) (o : Entity)
    : Dictionary Entity :=
  if decide (key = "__proto__" ∧ own d !! key = None) then
    mkDictionary (own d) (Some o)
  else mkDictionary (<[key := o]> (own d)) (prototype d).

End Access.

End PlainObject.

Module Parser.

(** *** Section extraction *)

Definition sectionStart (keyword : string) : string := "[" +:+ keyword +:+ "]".
Definition sectionEnd (keyword : string) : string := "[End" +:+ keyword +:+ "]".

(** The [for] loop of [extractInstructionsFromSection], entered at [index]
    with the start index found so far; it returns the two indices as the
    loop leaves them ([None] is [null]). *)
Fixpoint scanSection (keyword : string) (instructions : list string)
    (index : nat) (sectionStartIndex : option nat) : option nat * option nat :=
  match instructions with
  | [] => (sectionStartIndex, None)
  | instruction :: rest =>
      if decide (instruction = sectionStart keyword) then
        scanSection keyword rest (S index) (Some index)
      else if decide (instruction = sectionEnd keyword) then
        (sectionStartIndex, Some index)  (* break *)
      else scanSection keyword rest (S index) sectionStartIndex
  end.

(** The two [else if] branches of the source repeat a condition the first
    [if] has already excluded; they cannot be reached. *)
Definition extractInstructionsFromSection (keyword : string)
    (instructions : list string) : result (list string) :=
  match scanSection keyword instructions 0 None with
  | (Some sectionStartIndex, Some sectionEndIndex) =>
      Ok (slice (sectionStartIndex + 1) sectionEndIndex instructions)
  | _ => Throw (SectionNotFound keyword)
  end.

(** *** Tokenizer *)

Record SplitState : Type := mkSplitState {
  isPairOpen : bool;
  resultArray : list string;
  wordBuffer : string;
}.

Definition push (wordBuffer : string) (char : ascii) : string :=
  wordBuffer +:+ String char EmptyString.

(** One iteration of the [for ... of] loop: the [switch] tests [pairChar]
    first, then [splitChar]. *)
Definition splitStep (splitChar pairChar : ascii) (st : SplitState)
    (char : ascii) : SplitState :=
  if decide (char = pairChar) then
    mkSplitState (negb (isPairOpen st)) (resultArray st) (wordBuffer st)
  else if decide (char = splitChar) then
    if isPairOpen st then
      mkSplitState (isPairOpen st) (resultArray st) (push (wordBuffer st) char)
    else
      mkSplitState (isPairOpen st) (resultArray st ++ [wordBuffer st]) EmptyString
  else
    mkSplitState (isPairOpen st) (resultArray st) (push (wordBuffer st) char).

Fixpoint splitLoop (splitChar pairChar : ascii) (st : SplitState)
    (text : string) : SplitState :=
  match text with
  | EmptyString => st
  | String char rest => splitLoop splitChar pairChar (splitStep splitChar pairChar st char) rest
  end.

Definition splitInit : SplitState := mkSplitState false [] EmptyString.

Definition splitWithEscapedCharacter (text : string) (splitChar pairChar : ascii)
    : list string :=
  resultArray
    (splitLoop splitChar pairChar splitInit (text +:+ String splitChar EmptyString)).

(** *** Stimulus decoding *)

Definition space : ascii := " ".
Definition doubleQuote : ascii := "034".

(** The object built for one stimulus line.  [stimulusType] is the first
    token of the line; a field that is [null] in the source is [None] at
    its outer [option]. *)
Inductive Stimulus : Type :=
| ImageStimulus (stimulusType : string) (filePath : token) (button : bool)
| TextStimulus (stimulusType : string) (content : token)
    (fontSize : option number) (fontColor : option token)
| TextFileStimulus (stimulusType : string) (filePath : token)
    (fontSize : option number) (fontColor : option token)
| MediaStimulus (stimulusType : string) (filePath : token).

Definition stimulusTypeOf (s : Stimulus) : string :=
  match s with
  | ImageStimulus t _ _ | TextStimulus t _ _ _
  | TextFileStimulus t _ _ _ | MediaStimulus t _ => t
  end.

(** The [filePath] property, when the object has one. *)
Definition filePathOf (s : Stimulus) : option token :=
  match s with
  | ImageStimulus _ p _ | TextFileStimulus _ p _ _ | MediaStimulus _ p => Some p
  | TextStimulus _ _ _ _ => None
  end.

(** [x === "n" ? null : parseInt(x)] *)
Definition fontSizeOf (fontSize : token) : option number :=
  if decide (fontSize = Some "n") then None else Some (ParseInt fontSize).

(** [x === "n" ? null : x] *)
Definition fontColorOf (fontColor : token) : option token :=
  if decide (fontColor = Some "n") then None else Some fontColor.

(** The [switch (stimulusType)] of [parseStimulus]. *)
Definition buildStimulus (splittedStimulusInstruction : list string)
    : result Stimulus :=
  let stimulusType := splittedStimulusInstruction !! 0 in
  let left := drop 2 splittedStimulusInstruction in
  if decide (stimulusType = Some "image") then
    let filePath := left !! 0 in
    let button := left !! 1 in
    Ok (ImageStimulus "image" filePath (truthy button))
  else if decide (stimulusType = Some "text") then
    let content := left !! 0 in
    let fontSize := left !! 1 in
    let fontColor := left !! 2 in
    Ok (TextStimulus "text" content (fontSizeOf fontSize) (fontColorOf fontColor))
  else if decide (stimulusType = Some "text_file") then
    let filePath := left !! 0 in
    let fontSize := left !! 1 in
    let fontColor := left !! 2 in
    Ok (TextFileStimulus "text_file" filePath (fontSizeOf fontSize) (fontColorOf fontColor))
  else if decide (stimulusType = Some "audio") then
    let filePath := splittedStimulusInstruction !! 0 in
    Ok (MediaStimulus "audio" filePath)
  else if decide (stimulusType = Some "video") then
    let filePath := splittedStimulusInstruction !! 0 in
    Ok (MediaStimulus "video" filePath)
  else Throw (InvalidStimulusType stimulusType).

(** The body of the loop of [parseStimulus] for one line: the key under
    which the object is stored, and the object. *)
Definition parseStimulusInstruction (currentStimulusInstruction : string)
    : result (string * Stimulus) :=
  let splittedStimulusInstruction :=
    splitWithEscapedCharacter currentStimulusInstruction space doubleQuote in
  let identifier := splittedStimulusInstruction !! 1 in
  stimulus ← buildStimulus splittedStimulusInstruction;
  mret (propertyKey identifier, stimulus).

(** The loop of [parseStimulus] over the remaining lines, with the own
    properties of [this.stimulus] as they stand.  The assignment is an
    insertion for every identifier but [__proto__];
    [ObjectParser.parseStimulusLoop] is the loop on the object itself. *)
Fixpoint parseStimulusLoop (stimulusInstructions : list string)
    (stimulus : gmap string Stimulus) : result (gmap string Stimulus) :=
  match stimulusInstructions with
  | [] => mret stimulus
  | currentStimulusInstruction :: rest =>
      entry ← parseStimulusInstruction currentStimulusInstruction;
      parseStimulusLoop rest (<[entry.1 := entry.2]> stimulus)
  end.

(** *** Sequence decoding *)

(** A field that is either one of the strings ["inf"], ["n"], kept as it
    is, or a number. *)
Inductive Timing : Type :=
| Sentinel (s : string)
| Numeric (n : number).

Definition timingOf (x : token) : Timing :=
  if decide (x = Some "inf") then Sentinel "inf"
  else if decide (x = Some "n") then Sentinel "n"
  else Numeric (ToNumber x).

Inductive Choices : Type :=
| NoChoices                            (* the string ["n"] *)
| ChoiceList (stimuli : list Stimulus).

(** The object built for one sequence line.  [feedback1] and [feedback2]
    are [None] while the object has no such property and [Some v] once the
    property is attached with value [v]. *)
Record Sequence : Type := mkSequence {
  onSetTime : number;
  identifier : token;
  stimulusDuration : Timing;
  choices : Choices;
  choiceDuration : Timing;
  answer : token;
  choiceOnsetRelativeToSim : Timing;
  reactionTime : Timing;
  feedbackType : token;
  feedbackDuration : Timing;
  test : token;
  feedback1 : option token;
  feedback2 : option token;
}.

(** The lookup among the own properties of [this.stimulus]: an object a
    stimulus line stored is truthy, a missing property reads [undefined].
    [ObjectParser.getStimulusByIdentifier] is the lookup on the object
    itself, which also finds what the prototype chain holds. *)
Definition getStimulusByIdentifier (stimulus : gmap string Stimulus)
    (stimulusIdentifier : string) : result Stimulus :=
  match stimulus !! stimulusIdentifier with
  | Some found => Ok found
  | None => Throw (UnknownStimulusIdentifier stimulusIdentifier)
  end.

(** [identifiers.map(identifier => this.getStimulusByIdentifier(identifier))] *)
Fixpoint resolveChoices (stimulus : gmap string Stimulus)
    (identifiers : list string) : result (list Stimulus) :=
  match identifiers with
  | [] => mret []
  | identifier :: rest =>
      found ← getStimulusByIdentifier stimulus identifier;
      others ← resolveChoices stimulus rest;
      mret (found :: others)
  end.

(** The [choices] property: a missing token makes [choices.split] fail. *)
Definition choicesOf (stimulus : gmap string Stimulus) (choices : token)
    : result Choices :=
  match choices with
  | None => Throw TypeError
  | Some c =>
      if decide (c = "n") then mret NoChoices
      else
        stimuli ← resolveChoices stimulus (split "," c);
        mret (ChoiceList stimuli)
  end.

(** The [switch (feedbackType)]: the first case has no [break] and falls
    through into the second. *)
Definition withFeedback1 (feedback1 : token) (sequence : Sequence) : Sequence :=
  mkSequence (onSetTime sequence) (identifier sequence)
    (stimulusDuration sequence) (choices sequence) (choiceDuration sequence)
    (answer sequence) (choiceOnsetRelativeToSim sequence)
    (reactionTime sequence) (feedbackType sequence)
    (feedbackDuration sequence) (test sequence)
    (Some feedback1) (feedback2 sequence).

Definition withFeedback2 (feedback2 : token) (sequence : Sequence) : Sequence :=
  mkSequence (onSetTime sequence) (identifier sequence)
    (stimulusDuration sequence) (choices sequence) (choiceDuration sequence)
    (answer sequence) (choiceOnsetRelativeToSim sequence)
    (reactionTime sequence) (feedbackType sequence)
    (feedbackDuration sequence) (test sequence)
    (feedback1 sequence) (Some feedback2).

Definition attachFeedback (feedbackType feedback1 feedback2 : token)
    (sequence : Sequence) : result Sequence :=
  if decide (feedbackType = Some "a") then
    mret (withFeedback2 feedback2 (withFeedback1 feedback1 sequence))
  else if decide (feedbackType = Some "tf") then
    mret (withFeedback2 feedback2 sequence)
  else if decide (feedbackType = Some "n") then mret sequence
  else if decide (feedbackType = Some "c") then mret sequence
  else Throw (InvalidFeedbackType feedbackType).

(** The body of the inner loop of [parseSequence] for one line. *)
Definition parseSequenceInstruction (stimulus : gmap string Stimulus)
    (instruction : string) : result Sequence :=
  let splittedInstruction := split " " instruction in
  let onSetTime := splittedInstruction !! 0 in
  let identifier := splittedInstruction !! 1 in
  let stimulusDuration := splittedInstruction !! 2 in
  let choices := splittedInstruction !! 3 in
  let choiceDuration := splittedInstruction !! 4 in
  let answer := splittedInstruction !! 5 in
  let choiceOnsetRelativeToSim := splittedInstruction !! 6 in
  let reactionTime := splittedInstruction !! 7 in
  let feedbackType := splittedInstruction !! 8 in
  let feedbackDuration := splittedInstruction !! 9 in
  let feedback1 := splittedInstruction !! 10 in
  let feedback2 := splittedInstruction !! 11 in
  let test := splittedInstruction !! 12 in
  resolved ← choicesOf stimulus choices;
  attachFeedback feedbackType feedback1 feedback2
    (mkSequence (ToNumber onSetTime) identifier (timingOf stimulusDuration)
       resolved (timingOf choiceDuration) answer
       (timingOf choiceOnsetRelativeToSim) (timingOf reactionTime)
       feedbackType (timingOf feedbackDuration) test None None).

(** The inner loop of [parseSequence]: [buffer.push(sequence)] per line. *)
Fixpoint parseSequenceLoop (stimulus : gmap string Stimulus)
    (instructions : list string) (buffer : list Sequence)
    : result (list Sequence) :=
  match instructions with
  | [] => mret buffer
  | instruction :: rest =>
      sequence ← parseSequenceInstruction stimulus instruction;
      parseSequenceLoop stimulus rest (buffer ++ [sequence])
  end.

(** *** The parser object *)

Record Parser : Type := mkParser {
  instructions : list string;
  stimulusInstructions : list string;
  preSequenceInstructions : list string;
  mainSequenceInstructions : list string;
  postSequenceInstructions : list string;
  stimulus : gmap string Stimulus;
  sequences : gmap string (list Sequence);
}.

(** [new Parser(rawInstructions)] *)
Definition new (rawInstructions : string) : Parser :=
  mkParser (trim <$> split "010" rawInstructions) [] [] [] [] ∅ ∅.

Definition splitSection (this : Parser) : result Parser :=
  stimulusSection ← extractInstructionsFromSection "Descriptions" (instructions this);
  preSection ← extractInstructionsFromSection "PreSeq" (instructions this);
  mainSection ← extractInstructionsFromSection "MainSeq" (instructions this);
  postSection ← extractInstructionsFromSection "PostSeq" (instructions this);
  mret (mkParser (instructions this) stimulusSection preSection mainSection
          postSection (stimulus this) (sequences this)).

Definition parseStimulus (this : Parser) : result Parser :=
  catalog ← parseStimulusLoop (stimulusInstructions this) (stimulus this);
  mret (mkParser (instructions this) (stimulusInstructions this)
          (preSequenceInstructions this) (mainSequenceInstructions this)
          (postSequenceInstructions this) catalog (sequences this)).

(** The outer loop visits [pre_sequence], [main_sequence], [post_sequence]
    in this order and stores each buffer under its name. *)
Definition parseSequence (this : Parser) : result Parser :=
  pre ← parseSequenceLoop (stimulus this) (preSequenceInstructions this) [];
  main ← parseSequenceLoop (stimulus this) (mainSequenceInstructions this) [];
  post ← parseSequenceLoop (stimulus this) (postSequenceInstructions this) [];
  mret (mkParser (instructions this) (stimulusInstructions this)
          (preSequenceInstructions this) (mainSequenceInstructions this)
          (postSequenceInstructions this) (stimulus this)
          (<["post_sequence" := post]>
             (<["main_sequence" := main]>
                (<["pre_sequence" := pre]> (sequences this))))).

Definition execute (this : Parser) : result Parser :=
  this ← splitSection this;
  this ← parseStimulus this;
  parseSequence this.

(** What [json] serialises: the catalog and the three sequences. *)
Definition document (this : Parser)
    : gmap string Stimulus * gmap string (list Sequence) :=
  (stimulus this, sequences this).

End Parser.

(** ** The older variant of the class

    Only the methods that differ from [Parser] in what they accept are
    embedded.  The loop of [extractInstructionsFromSection] is the same text
    as in [Parser]; the declaration before it is not. *)

Module LegacyParser.

(** [let sectionStartIndex, sectionEndIndex = null;] initialises the end
    index alone: the start index begins as [undefined], so of the two tests
    [=== null] only the one on the end index can hold.  With no start
    marker, [undefined + 1] is [NaN] and [slice] reads it as [0]. *)
Definition extractInstructionsFromSection (keyword : string)
    (instructions : list string) : result (list string) :=
  match Parser.scanSection keyword instructions 0 None with
  | (_, None) => Throw (SectionNotFound keyword)
  | (Some sectionStartIndex, Some sectionEndIndex) =>
      Ok (slice (sectionStartIndex + 1) sectionEndIndex instructions)
  | (None, Some sectionEndIndex) =>
      Ok (slice 0 sectionEndIndex instructions)
  end.

Section Sequences.

(** The objects [parseStimulus] stores in [this.stimulus]; the sequence
    decoder never inspects them. *)
Context {Stimulus : Type}.

(** [return this.stimulus[stimulusIdentifier];] among the own properties of
    [this.stimulus], where [None] is the [undefined] read from a missing
    property. *)
Definition getStimulusByIdentifier (stimulus : gmap string Stimulus)
    (stimulusIdentifier : string) : option Stimulus :=
  stimulus !! stimulusIdentifier.

Inductive Choices : Type :=
| NoChoices
| ChoiceList (stimuli : list (option Stimulus)).

(** [x == "inf" ? x : x * 1] *)
Definition stimulusDurationOf (x : token) : Parser.Timing :=
  if decide (x = Some "inf") then Parser.Sentinel "inf"
  else Parser.Numeric (ToNumber x).

Record Sequence : Type := mkSequence {
  onSetTime : number;
  identifier : token;
  stimulusDuration : Parser.Timing;
  choices : Choices;
  choiceDuration : Parser.Timing;
  answer : token;
  choiceOnsetRelativeToSim : Parser.Timing;
  reactionTime : Parser.Timing;
  feedbackType : token;
  feedbackDuration : Parser.Timing;
  test : token;
  feedback1 : option token;
  feedback2 : option token;
}.

Definition choicesOf (stimulus : gmap string Stimulus) (choices : token)
    : result Choices :=
  match choices with
  | None => Throw TypeError
  | Some c =>
      if decide (c = "n") then mret NoChoices
      else mret (ChoiceList (getStimulusByIdentifier stimulus <$> split "," c))
  end.

Definition withFeedback1 (feedback1 : token) (sequence : Sequence) : Sequence :=
  mkSequence (onSetTime sequence) (identifier sequence)
    (stimulusDuration sequence) (choices sequence) (choiceDuration sequence)
    (answer sequence) (choiceOnsetRelativeToSim sequence)
    (reactionTime sequence) (feedbackType sequence)
    (feedbackDuration sequence) (test sequence)
    (Some feedback1) (feedback2 sequence).

Definition withFeedback2 (feedback2 : token) (sequence : Sequence) : Sequence :=
  mkSequence (onSetTime sequence) (identifier sequence)
    (stimulusDuration sequence) (choices sequence) (choiceDuration sequence)
    (answer sequence) (choiceOnsetRelativeToSim sequence)
    (reactionTime sequence) (feedbackType sequence)
    (feedbackDuration sequence) (test sequence)
    (feedback1 sequence) (Some feedback2).

Definition attachFeedback (feedbackType feedback1 feedback2 : token)
    (sequence : Sequence) : result Sequence :=
  if decide (feedbackType = Some "a") then
    mret (withFeedback2 feedback2 (withFeedback1 feedback1 sequence))
  else if decide (feedbackType = Some "tf") then
    mret (withFeedback2 feedback2 sequence)
  else if decide (feedbackType = Some "n") then mret sequence
  else if decide (feedbackType = Some "c") then mret sequence
  else Throw (InvalidFeedbackType feedbackType).

Definition parseSequenceInstruction (stimulus : gmap string Stimulus)
    (instruction : string) : result Sequence :=
  let splittedInstruction := split " " instruction in
  let onSetTime := splittedInstruction !! 0 in
  let identifier := splittedInstruction !! 1 in
  let stimulusDuration := splittedInstruction !! 2 in
  let choices := splittedInstruction !! 3 in
  let choiceDuration := splittedInstruction !! 4 in
  let answer := splittedInstruction !! 5 in
  let choiceOnsetRelativeToSim := splittedInstruction !! 6 in
  let reactionTime := splittedInstruction !! 7 in
  let feedbackType := splittedInstruction !! 8 in
  let feedbackDuration := splittedInstruction !! 9 in
  let feedback1 := splittedInstruction !! 10 in
  let feedback2 := splittedInstruction !! 11 in
  let test := splittedInstruction !! 12 in
  resolved ← choicesOf stimulus choices;
  attachFeedback feedbackType feedback1 feedback2
    (mkSequence (ToNumber onSetTime) identifier
       (stimulusDurationOf stimulusDuration) resolved
       (Parser.timingOf choiceDuration) answer
       (Parser.timingOf choiceOnsetRelativeToSim)
       (Parser.timingOf reactionTime) feedbackType
       (Parser.timingOf feedbackDuration) test None None).

End Sequences.

Arguments Choices : clear implicits.
Arguments Sequence : clear implicits.

(** *** Stimulus decoding of the older class

    The tokenizer of the older class is the same text as
    [Parser.splitWithEscapedCharacter]. *)

(** How a method ends: it returns, it throws an error object of its own, or
    the engine throws a [ReferenceError] because a [let] binding is read
    inside its own initializer. *)
Inductive Outcome (A : Type) : Type :=
| Returned (a : A)
| Thrown (e : Error)
| ReferenceError.
Arguments Returned {A} a.
Arguments Thrown {A} e.
Arguments ReferenceError {A}.

(** The objects stored in [this.stimulus]; every property holds a token as
    it was read, with no conversion. *)
Inductive StimulusObject : Type :=
| ImageObject (stimulusType identifier filePath button : token)
| TextObject (stimulusType identifier content : token)
    (fontSize fontColor : string)
| TextFileObject (stimulusType identifier filePath : token)
    (fontSize fontColor : string)
| AudioObject (stimulusType identifier filePath : token).

(** The [switch (stimulusType)].  In the [text] and [text_file] cases the
    pattern [fontSize = fontSize === "n" ? null : fontSize * 1] gives the
    slot a default that reads the binding being declared: the default is
    evaluated only when the slot is [undefined], and then throws.  The label
    [Parser.StimulusTypes.VIDEO] is not a member of [StimulusTypes], so the
    case after [AUDIO] is [case undefined]. *)
Definition buildStimulusObject (splittedStimulusInstruction : list string)
    : Outcome StimulusObject :=
  let stimulusType := splittedStimulusInstruction !! 0 in
  let identifier := splittedStimulusInstruction !! 1 in
  if decide (stimulusType = Some "image") then
    let filePath := splittedStimulusInstruction !! 2 in
    let button := splittedStimulusInstruction !! 3 in
    Returned (ImageObject stimulusType identifier filePath button)
  else if decide (stimulusType = Some "text") then
    let content := splittedStimulusInstruction !! 2 in
    match splittedStimulusInstruction !! 3 with
    | None => ReferenceError
    | Some fontSize =>
        match splittedStimulusInstruction !! 4 with
        | None => ReferenceError
        | Some fontColor =>
            Returned (TextObject stimulusType identifier content fontSize fontColor)
        end
    end
  else if decide (stimulusType = Some "text_file") then
    let filePath := splittedStimulusInstruction !! 2 in
    match splittedStimulusInstruction !! 3 with
    | None => ReferenceError
    | Some fontSize =>
        match splittedStimulusInstruction !! 4 with
        | None => ReferenceError
        | Some fontColor =>
            Returned (TextFileObject stimulusType identifier filePath fontSize fontColor)
        end
    end
  else if decide (stimulusType = Some "audio") then
    let filePath := splittedStimulusInstruction !! 2 in
    Returned (AudioObject stimulusType identifier filePath)
  else if decide (stimulusType = None) then
    let filePath := splittedStimulusInstruction !! 2 in
    Returned (AudioObject stimulusType identifier filePath)
  else Thrown (InvalidStimulusType stimulusType).

(** The body of the loop of [parseStimulus] for one line: the key under
    which the object is stored, and the object. *)
Definition parseStimulusInstruction (currentStimulusInstruction : string)
    : Outcome (string * StimulusObject) :=
  let splittedStimulusInstruction :=
    Parser.splitWithEscapedCharacter currentStimulusInstruction
      Parser.space Parser.doubleQuote in
  let identifier := splittedStimulusInstruction !! 1 in
  match buildStimulusObject splittedStimulusInstruction with
  | Returned stimulus => Returned (propertyKey identifier, stimulus)
  | Thrown e => Thrown e
  | ReferenceError => ReferenceError
  end.

(** The loop of [parseStimulus] over the remaining lines, with
    [this.stimulus] as it stands. *)
Fixpoint parseStimulusLoop (stimulusInstructions : list string)
    (stimulus : PlainObject.Dictionary StimulusObject)
    : Outcome (PlainObject.Dictionary StimulusObject) :=
  match stimulusInstructions with
  | [] => Returned stimulus
  | currentStimulusInstruction :: rest =>
      match parseStimulusInstruction currentStimulusInstruction with
      | Returned entry =>
          parseStimulusLoop rest (PlainObject.set stimulus entry.1 entry.2)
      | Thrown e => Thrown e
      | ReferenceError => ReferenceError
      end
  end.

(** [parseStimulus] starts from [this.stimulus = {}]. *)
Definition parseStimulus (stimulusInstructions : list string)
    : Outcome (PlainObject.Dictionary StimulusObject) :=
  parseStimulusLoop stimulusInstructions PlainObject.empty.

End LegacyParser.

(** ** [Parser] on the object itself

    [parseStimulus] and [getStimulusByIdentifier] once more, with
    [this.stimulus] as the plain object it is.  The body of the loop of
    [parseStimulus] is [Parser.parseStimulusInstruction]; the decoding of a
    sequence line is [Parser.parseSequenceInstruction] with the lookup
    replaced, its [choices] holding whatever the reads return. *)

Module ObjectParser.

Import PlainObject.

Definition Value : Type := PlainObject.Value Parser.Stimulus.
Definition Dictionary : Type := PlainObject.Dictionary Parser.Stimulus.

(** A property that holds a destructured slot. *)
Definition ofToken (x : token) : Value :=
  match x with
  | Some s => VString s
  | None => VUndefined
  end.

(** A property that is [null] or a number. *)
Definition ofFontSize (fontSize : option number) : Value :=
  match fontSize with
  | Some n => VNumber n
  | None => VNull
  end.

(** A property that is [null] or a destructured slot. *)
Definition ofFontColor (fontColor : option token) : Value :=
  match fontColor with
  | Some x => ofToken x
  | None => VNull
  end.

(** The properties the object literals of [parseStimulus] give an object. *)
Definition propertiesOf (s : Parser.Stimulus) : list (string * Value) :=
  match s with
  | Parser.ImageStimulus stimulusType filePath button =>
      [("stimulusType", VString stimulusType); ("filePath", ofToken filePath);
       ("button", VBoolean button)]
  | Parser.TextStimulus stimulusType content fontSize fontColor =>
      [("stimulusType", VString stimulusType); ("content", ofToken content);
       ("fontSize", ofFontSize fontSize); ("fontColor", ofFontColor fontColor)]
  | Parser.TextFileStimulus stimulusType filePath fontSize fontColor =>
      [("stimulusType", VString stimulusType); ("filePath", ofToken filePath);
       ("fontSize", ofFontSize fontSize); ("fontColor", ofFontColor fontColor)]
  | Parser.MediaStimulus stimulusType filePath =>
      [("stimulusType", VString stimulusType); ("filePath", ofToken filePath)]
  end.

Fixpoint assoc {A : Type} (key : string) (l : list (string * A)) : option A :=
  match l with
  | [] => None
  | (k, v) :: rest => if decide (k = key) then Some v else assoc key rest
  end.

Definition properties (s : Parser.Stimulus) (key : string) : option Value :=
  assoc key (propertiesOf s).

(** The loop of [parseStimulus] over the remaining lines, with
    [this.stimulus] as it stands: [this.stimulus[identifier] = stimulus]. *)
Fixpoint parseStimulusLoop (stimulusInstructions : list string)
    (stimulus : Dictionary) : result Dictionary :=
  match stimulusInstructions with
  | [] => mret stimulus
  | currentStimulusInstruction :: rest =>
      entry ← Parser.parseStimulusInstruction currentStimulusInstruction;
      parseStimulusLoop rest (set stimulus entry.1 entry.2)
  end.

Inductive Choices : Type :=
| NoChoices                          (* the string ["n"] *)
| ChoiceList (stimuli : list Value).

Record Sequence : Type := mkSequence {
  onSetTime : number;
  identifier : token;
  stimulusDuration : Parser.Timing;
  choices : Choices;
  choiceDuration : Parser.Timing;
  answer : token;
  choiceOnsetRelativeToSim : Parser.Timing;
  reactionTime : Parser.Timing;
  feedbackType : token;
  feedbackDuration : Parser.Timing;
  test : token;
  feedback1 : option token;
  feedback2 : option token;
}.

Definition withFeedback1 (feedback1 : token) (sequence : Sequence) : Sequence :=
  mkSequence (onSetTime sequence) (identifier sequence)
    (stimulusDuration sequence) (choices sequence) (choiceDuration sequence)
    (answer sequence) (choiceOnsetRelativeToSim sequence)
    (reactionTime sequence) (feedbackType sequence)
    (feedbackDuration sequence) (test sequence)
    (Some feedback1) (feedback2 sequence).

Definition withFeedback2 (feedback2 : token) (sequence : Sequence) : Sequence :=
  mkSequence (onSetTime sequence) (identifier sequence)
    (stimulusDuration sequence) (choices sequence) (choiceDuration sequence)
    (answer sequence) (choiceOnsetRelativeToSim sequence)
    (reactionTime sequence) (feedbackType sequence)
    (feedbackDuration sequence) (test sequence)
    (feedback1 sequence) (Some feedback2).

Definition attachFeedback (feedbackType feedback1 feedback2 : token)
    (sequence : Sequence) : result Sequence :=
  if decide (feedbackType = Some "a") then
    mret (withFeedback2 feedback2 (withFeedback1 feedback1 sequence))
  else if decide (feedbackType = Some "tf") then
    mret (withFeedback2 feedback2 sequence)
  else if decide (feedbackType = Some "n") then mret sequence
  else if decide (feedbackType = Some "c") then mret sequence
  else Throw (InvalidFeedbackType feedbackType).

Section Lookup.

(** Numbers are symbolic: which of them are [0] or [NaN], the falsy ones, is
    left open. *)
Variable zeroOrNaN : number → bool.

(** [if (found)] *)
Definition isTruthy (found : Value) : bool :=
  match found with
  | VObject _ | VFunction _ | VObjectPrototype => true
  | VString s => bool_decide (s ≠ EmptyString)
  | VBoolean b => b
  | VNumber n => negb (zeroOrNaN n)
  | VNull | VUndefined => false
  end.

Definition getStimulusByIdentifier (stimulus : Dictionary)
    (stimulusIdentifier : string) : result Value :=
  let found := get properties stimulus stimulusIdentifier in
  if isTruthy found then Ok found
  else Throw (UnknownStimulusIdentifier stimulusIdentifier).

Fixpoint resolveChoices (stimulus : Dictionary) (identifiers : list string)
    : result (list Value) :=
  match identifiers with
  | [] => mret []
  | identifier :: rest =>
      found ← getStimulusByIdentifier stimulus identifier;
      others ← resolveChoices stimulus rest;
      mret (found :: others)
  end.

Definition choicesOf (stimulus : Dictionary) (choices : token)
    : result Choices :=
  match choices with
  | None => Throw TypeError
  | Some c =>
      if decide (c = "n") then mret NoChoices
      else
        stimuli ← resolveChoices stimulus (split "," c);
        mret (ChoiceList stimuli)
  end.

Definition parseSequenceInstruction (stimulus : Dictionary)
    (instruction : string) : result Sequence :=
  let splittedInstruction := split " " instruction in
  let onSetTime := splittedInstruction !! 0 in
  let identifier := splittedInstruction !! 1 in
  let stimulusDuration := splittedInstruction !! 2 in
  let choices := splittedInstruction !! 3 in
  let choiceDuration := splittedInstruction !! 4 in
  let answer := splittedInstruction !! 5 in
  let choiceOnsetRelativeToSim := splittedInstruction !! 6 in
  let reactionTime := splittedInstruction !! 7 in
  let feedbackType := splittedInstruction !! 8 in
  let feedbackDuration := splittedInstruction !! 9 in
  let feedback1 := splittedInstruction !! 10 in
  let feedback2 := splittedInstruction !! 11 in
  let test := splittedInstruction !! 12 in
  resolved ← choicesOf stimulus choices;
  attachFeedback feedbackType feedback1 feedback2
    (mkSequence (ToNumber onSetTime) identifier
       (Parser.timingOf stimulusDuration) resolved
       (Parser.timingOf choiceDuration) answer
       (Parser.timingOf choiceOnsetRelativeToSim)
       (Parser.timingOf reactionTime) feedbackType
       (Parser.timingOf feedbackDuration) test None None).

End Lookup.

End ObjectParser.

(** * Vocabulary of the statements *)

Import Parser.

(** No word, finished or in progress, holds the pair character. *)
Definition pairFree (pairChar : ascii) (st : SplitState) : Prop :=
  occurs pairChar (wordBuffer st) = false
  ∧ Forall (λ w, occurs pairChar w = false) (resultArray st).

(** The word in progress becomes the head of the words still to come. *)
Definition prefixFirst (buffer : string) (words : list string) : list string :=
  match words with
  | [] => [buffer]
  | w :: ws => (buffer +:+ w) :: ws
  end.

(** The start index the loop holds after it has read [instructions]
    without meeting an end marker. *)
Fixpoint lastStart (keyword : string) (instructions : list string)
    (index : nat) (sectionStartIndex : option nat) : option nat :=
  match instructions with
  | [] => sectionStartIndex
  | instruction :: rest =>
      if decide (instruction = sectionStart keyword) then
        lastStart keyword rest (S index) (Some index)
      else lastStart keyword rest (S index) sectionStartIndex
  end.

(** The boundaries of a section as the loop finds them: the end boundary is
    the first end marker of the list, the start boundary the last start
    marker before it. *)
Definition isEndBoundary (keyword : string) (instructions : list string)
    (e : nat) : Prop :=
  instructions !! e = Some (sectionEnd keyword)
  ∧ ∀ i, i < e → instructions !! i ≠ Some (sectionEnd keyword).

Definition isStartBoundary (keyword : string) (instructions : list string)
    (e s : nat) : Prop :=
  s < e
  ∧ instructions !! s = Some (sectionStart keyword)
  ∧ ∀ i, s < i < e → instructions !! i ≠ Some (sectionStart keyword).

(** The boundaries as the specification words them: the start boundary is the
    first start marker of the list, the end boundary the first end marker
    after it. *)
Definition isFirstStart (keyword : string) (instructions : list string)
    (s : nat) : Prop :=
  instructions !! s = Some (sectionStart keyword)
  ∧ ∀ i, i < s → instructions !! i ≠ Some (sectionStart keyword).

Definition isFirstEndAfter (keyword : string) (instructions : list string)
    (s e : nat) : Prop :=
  s < e
  ∧ instructions !! e = Some (sectionEnd keyword)
  ∧ ∀ i, s < i < e → instructions !! i ≠ Some (sectionEnd keyword).

(** The type tags [parseStimulus] has a case for. *)
Definition supportedStimulusTypes : list token :=
  [Some "image"; Some "text"; Some "text_file"; Some "audio"; Some "video"].

(** A small script with the four sections, used to exercise the statements. *)
Definition newline : string := String "010" EmptyString.

Definition exampleScript : string :=
  "Task WM Test Experiment" +:+ newline +:+
  "[Descriptions]" +:+ newline +:+
  "  image I1 img/3.png true" +:+ newline +:+
  "  text I2 " +:+ String doubleQuote ("hello world" +:+ String doubleQuote " n n") +:+ newline +:+
  "  image I1 img/4.png" +:+ newline +:+
  "[EndDescriptions]" +:+ newline +:+
  "[PreSeq]" +:+ newline +:+
  "0 s1 inf I1,I2 100 1 0 n a 10 F1 F2 y" +:+ newline +:+
  "[EndPreSeq]" +:+ newline +:+
  "[MainSeq]" +:+ newline +:+
  "0 s2 500 n inf n n n tf 10 n F2 n" +:+ newline +:+
  "[EndMainSeq]" +:+ newline +:+
  "[PostSeq]" +:+ newline +:+
  "[EndPostSeq]".

(** ** Vocabulary of the further properties *)

(** Number of occurrences of [c] in [s]. *)
Fixpoint countChar (c : ascii) (s : string) : nat :=
  match s with
  | EmptyString => 0
  | String c' rest => (if decide (c' = c) then 1 else 0) + countChar c rest
  end.

(** [words.join(separator)] for a one-character separator. *)
Fixpoint join (separator : ascii) (words : list string) : string :=
  match words with
  | [] => EmptyString
  | w :: rest =>
      match rest with
      | [] => w
      | _ :: _ => w +:+ String separator (join separator rest)
      end
  end.

(** The characters held by a list of words. *)
Definition totalLength (words : list string) : nat :=
  foldr (λ w n, String.length w + n) 0 words.

(** The scanner's measure of what it holds: the characters of the finished
    words, one split character per finished word, and the word in progress. *)
Definition held (st : SplitState) : nat :=
  totalLength (resultArray st) + length (resultArray st)
  + String.length (wordBuffer st).

(** A field of a line as a script writes it: a bare word, or a text between
    two pair characters. *)
Inductive Field : Type :=
| Bare (word : string)
| Quoted (content : string).

Definition render (pairChar : ascii) (f : Field) : string :=
  match f with
  | Bare word => word
  | Quoted content => String pairChar (content +:+ String pairChar EmptyString)
  end.

Definition value (f : Field) : string :=
  match f with
  | Bare word => word
  | Quoted content => content
  end.

(** A bare word holds neither the split nor the pair character; a quoted
    text holds no pair character. *)
Definition wellFormed (splitChar pairChar : ascii) (f : Field) : Prop :=
  match f with
  | Bare word => occurs splitChar word = false ∧ occurs pairChar word = false
  | Quoted content => occurs pairChar content = false
  end.

(** A line written field by field. *)
Definition writeLine (fields : list Field) : string :=
  join space (render doubleQuote <$> fields).

(** The property names of the objects [parseStimulus] stores. *)
Definition stimulusPropertyNames : list string :=
  ["stimulusType"; "filePath"; "button"; "content"; "fontSize"; "fontColor"].

(** An identifier that names nothing but what a stimulus line stores under
    it: it is not [__proto__], not a member of [Object.prototype], not a
    property of a stimulus object. *)
Definition ordinary (identifier : string) : Prop :=
  identifier ≠ "__proto__"
  ∧ (identifier ∉ PlainObject.objectPrototypeMembers)
  ∧ (identifier ∉ stimulusPropertyNames).

(** The step [Parser] decodes, as [ObjectParser] holds it. *)
Definition ofChoices (c : Choices) : ObjectParser.Choices :=
  match c with
  | NoChoices => ObjectParser.NoChoices
  | ChoiceList stimuli => ObjectParser.ChoiceList (PlainObject.VObject <$> stimuli)
  end.

Definition ofSequence (s : Sequence) : ObjectParser.Sequence :=
  ObjectParser.mkSequence (onSetTime s) (identifier s) (stimulusDuration s)
    (ofChoices (choices s)) (choiceDuration s) (answer s)
    (choiceOnsetRelativeToSim s) (reactionTime s) (feedbackType s)
    (feedbackDuration s) (test s) (feedback1 s) (feedback2 s).

(** [f] applied to what a method returns. *)
Definition onReturn {A B : Type} (f : A → B) (r : result A) : result B :=
  match r with
  | Ok a => Ok (f a)
  | Throw e => Throw e
  end.

(** A text made of white-space characters only. *)
Definition whiteOnly (s : string) : Prop :=
  ∃ characters,
    Forall (λ c, c ∈ whiteSpace) characters
    ∧ s = foldr String.append EmptyString characters.

Definition startsWith (c s : string) : Prop := ∃ rest, s = c +:+ rest.
Definition endsWith (c s : string) : Prop := ∃ rest, s = rest +:+ c.

(** A text with no white-space character at either end. *)
Definition trimmed (s : string) : Prop :=
  ∀ c, c ∈ whiteSpace → ¬ startsWith c s ∧ ¬ endsWith c s.

(** The feedback types [parseSequence] has a case for. *)
Definition feedbackTypes : list token :=
  [Some "a"; Some "tf"; Some "n"; Some "c"].

(** The section keywords in the order [splitSection] asks for them. *)
Definition sectionKeywords : list string :=
  ["Descriptions"; "PreSeq"; "MainSeq"; "PostSeq"].

(** * Properties *)

(** ** Strings *)

#[local] Arguments String.append !_ _ / : simpl nomatch.

(** Closes [x ∉ l] for a literal list [l] whose elements differ from [x] by
    their constructors. *)
Ltac absent_from_literal :=
  repeat (apply not_elem_of_cons; split; [discriminate |]);
  apply not_elem_of_nil.

(** Closes [x ∈ l] for a literal list [l] that holds [x]. *)
Ltac listed :=
  repeat first [apply list_elem_of_here | apply list_elem_of_further].

(** Closes [ordinary x] for a literal [x]. *)
Ltac ordinary_literal :=
  split; [discriminate |];
  split; [unfold PlainObject.objectPrototypeMembers
         | unfold stimulusPropertyNames];
  absent_from_literal.

Lemma append_empty_r (s : string) : s +:+ EmptyString = s.
Proof. induction s as [|c s IH]; simpl; [done | by rewrite IH]. Qed.

Lemma append_assoc (a b c : string) : (a +:+ b) +:+ c = a +:+ (b +:+ c).
Proof. induction a as [|x a IH]; simpl; [done | by rewrite IH]. Qed.

Lemma push_append (buffer rest : string) (c : ascii) :
  push buffer c +:+ rest = buffer +:+ String c rest.
Proof. unfold push. by rewrite append_assoc. Qed.

Lemma occurs_append (c : ascii) (a b : string) :
  occurs c (a +:+ b) = occurs c a || occurs c b.
Proof.
  induction a as [|x a IH]; simpl; [done |].
  rewrite IH. by rewrite orb_assoc.
Qed.

Lemma occurs_push (c : ascii) (buffer : string) (x : ascii) :
  x ≠ c → occurs c (push buffer x) = occurs c buffer.
Proof.
  intros Hx. unfold push. rewrite occurs_append. simpl.
  rewrite bool_decide_eq_false_2 by done. by rewrite !orb_false_r.
Qed.

(** ** Tokenizer *)

Section Tokenizer.

Variables splitChar pairChar : ascii.

Lemma splitLoop_append (st : SplitState) (a b : string) :
  splitLoop splitChar pairChar st (a +:+ b)
  = splitLoop splitChar pairChar (splitLoop splitChar pairChar st a) b.
Proof. revert st. induction a as [|c a IH]; intros st; simpl; [done | apply IH]. Qed.

Lemma splitStep_pairFree (st : SplitState) (char : ascii) :
  pairFree pairChar st → pairFree pairChar (splitStep splitChar pairChar st char).
Proof.
  intros [Hbuf Hres]. unfold splitStep.
  destruct (decide (char = pairChar)) as [->|Hne]; [by split |].
  destruct (decide (char = splitChar)) as [->|Hns].
  - destruct (isPairOpen st); split; simpl; auto.
    + by rewrite occurs_push.
    + apply Forall_app; split; [done | by constructor].
  - split; simpl; [by rewrite occurs_push | done].
Qed.

Lemma splitLoop_pairFree (st : SplitState) (text : string) :
  pairFree pairChar st → pairFree pairChar (splitLoop splitChar pairChar st text).
Proof.
  revert st. induction text as [|c text IH]; intros st Hst; simpl; [done |].
  apply IH. by apply splitStep_pairFree.
Qed.

(** Inside an open pair every character but the pair character is kept. *)
Lemma splitLoop_open (res : list string) (buffer span : string) :
  occurs pairChar span = false →
  splitLoop splitChar pairChar (mkSplitState true res buffer) span
  = mkSplitState true res (buffer +:+ span).
Proof.
  revert buffer. induction span as [|c span IH]; intros buffer Hfree; simpl.
  - by rewrite append_empty_r.
  - simpl in Hfree. apply orb_false_iff in Hfree as [Hc Hspan].
    apply bool_decide_eq_false in Hc.
    unfold splitStep. rewrite decide_False by done. simpl.
    destruct (decide (c = splitChar)); rewrite IH by done; by rewrite push_append.
Qed.

Lemma split_cons (separator c : ascii) (s : string) :
  c ≠ separator →
  split separator (String c s) = prefixFirst (String c EmptyString) (split separator s).
Proof.
  intros Hne. simpl. rewrite decide_False by done.
  by destruct (split separator s).
Qed.

Lemma split_nonempty (separator : ascii) (s : string) : split separator s ≠ [].
Proof.
  destruct s as [|c s]; simpl; [done |].
  destruct (decide (c = separator)); [done |].
  by destruct (split separator s).
Qed.

Lemma splitLoop_closed (res : list string) (buffer text : string) :
  splitChar ≠ pairChar →
  occurs pairChar text = false →
  resultArray (splitLoop splitChar pairChar (mkSplitState false res buffer)
                 (text +:+ String splitChar EmptyString))
  = res ++ prefixFirst buffer (split splitChar text).
Proof.
  intros Hdq. revert res buffer.
  induction text as [|c text IH]; intros res buffer Hfree; simpl.
  - unfold splitStep. rewrite decide_False by done.
    rewrite decide_True by done. simpl. by rewrite append_empty_r.
  - simpl in Hfree. apply orb_false_iff in Hfree as [Hc Htext].
    apply bool_decide_eq_false in Hc.
    unfold splitStep. rewrite decide_False by done.
    destruct (decide (c = splitChar)) as [->|Hns]; simpl.
    + rewrite IH by done. rewrite <- app_assoc. simpl.
      rewrite append_empty_r.
      pose proof (split_nonempty splitChar text) as Hne.
      by destruct (split splitChar text).
    + rewrite IH by done. f_equal.
      pose proof (split_nonempty splitChar text) as Hne.
      destruct (split splitChar text) as [|w ws]; [done |]. simpl.
      by rewrite push_append.
Qed.

End Tokenizer.

(** ** Section extraction *)

Lemma length_append (a b : string) :
  String.length (a +:+ b) = String.length a + String.length b.
Proof. induction a as [|c a IH]; simpl; [done | by rewrite IH]. Qed.

Lemma sectionStart_ne_sectionEnd (keyword : string) :
  sectionStart keyword ≠ sectionEnd keyword.
Proof.
  intros Heq. apply (f_equal String.length) in Heq.
  unfold sectionStart, sectionEnd in Heq.
  rewrite !length_append in Heq. simpl in Heq. lia.
Qed.

Section Scan.

Variable keyword : string.

Lemma scanSection_no_end (instructions : list string) (index : nat)
    (start : option nat) :
  sectionEnd keyword ∉ instructions →
  scanSection keyword instructions index start
  = (lastStart keyword instructions index start, None).
Proof.
  revert index start.
  induction instructions as [|x rest IH]; intros index start Hnot; simpl; [done |].
  apply not_elem_of_cons in Hnot as [Hx Hrest].
  destruct (decide (x = sectionStart keyword)); [by apply IH |].
  rewrite decide_False by done. by apply IH.
Qed.

Lemma scanSection_first_end (before after : list string) (index : nat)
    (start : option nat) :
  sectionEnd keyword ∉ before →
  scanSection keyword (before ++ sectionEnd keyword :: after) index start
  = (lastStart keyword before index start, Some (index + length before)).
Proof.
  revert index start.
  induction before as [|x rest IH]; intros index start Hnot; simpl.
  - pose proof (sectionStart_ne_sectionEnd keyword).
    rewrite decide_False by done. rewrite decide_True by done.
    do 2 f_equal. lia.
  - apply not_elem_of_cons in Hnot as [Hx Hrest].
    destruct (decide (x = sectionStart keyword)).
    + rewrite IH by done. do 2 f_equal. lia.
    + rewrite decide_False by done. rewrite IH by done. do 2 f_equal. lia.
Qed.

Lemma lastStart_no_start (instructions : list string) (index : nat)
    (start : option nat) :
  sectionStart keyword ∉ instructions →
  lastStart keyword instructions index start = start.
Proof.
  revert index start.
  induction instructions as [|x rest IH]; intros index start Hnot; simpl; [done |].
  apply not_elem_of_cons in Hnot as [Hx Hrest].
  rewrite decide_False by done. by apply IH.
Qed.

Lemma lastStart_last_start (before after : list string) (index : nat)
    (start : option nat) :
  sectionStart keyword ∉ after →
  lastStart keyword (before ++ sectionStart keyword :: after) index start
  = Some (index + length before).
Proof.
  revert index start.
  induction before as [|x rest IH]; intros index start Hnot; simpl.
  - rewrite decide_True by done. rewrite lastStart_no_start by done.
    f_equal. lia.
  - destruct (decide (x = sectionStart keyword));
      rewrite IH by done; f_equal; lia.
Qed.

(** The list cut at the two markers the loop stops on. *)
Lemma extract_between (before section after : list string) :
  sectionEnd keyword ∉ before →
  sectionEnd keyword ∉ section →
  sectionStart keyword ∉ section →
  extractInstructionsFromSection keyword
    (before ++ sectionStart keyword :: section ++ sectionEnd keyword :: after)
  = Ok section.
Proof.
  intros Hbefore Hsection Hstart. unfold extractInstructionsFromSection.
  replace (before ++ sectionStart keyword :: section ++ sectionEnd keyword :: after)
    with ((before ++ sectionStart keyword :: section) ++ sectionEnd keyword :: after)
    by (by rewrite <- app_assoc).
  rewrite scanSection_first_end.
  2:{ rewrite elem_of_app, elem_of_cons.
      pose proof (sectionStart_ne_sectionEnd keyword) as Hne.
      intros [Hin | [Heq | Hin]]; [done | by apply Hne | done]. }
  rewrite lastStart_last_start by done. simpl.
  f_equal. unfold slice.
  rewrite take_app_length.
  replace (length before + 1) with (length (before ++ [sectionStart keyword]))
    by (rewrite length_app; simpl; lia).
  rewrite (cons_middle _ before section), app_assoc.
  by rewrite drop_app_length.
Qed.

End Scan.

Section Boundaries.

Variable keyword : string.
Variable instructions : list string.

Lemma not_elem_of_take_below (x : string) (n : nat) :
  (∀ i, i < n → instructions !! i ≠ Some x) → x ∉ take n instructions.
Proof.
  intros Hbelow Hin. apply list_elem_of_lookup in Hin as [i Hi].
  apply lookup_take_Some in Hi as [Hi Hlt]. by apply (Hbelow i).
Qed.

Lemma not_elem_of_slice_between (x : string) (s e : nat) :
  (∀ i, s < i < e → instructions !! i ≠ Some x) →
  x ∉ slice (S s) e instructions.
Proof.
  intros Hbetween Hin. unfold slice in Hin.
  apply list_elem_of_lookup in Hin as [i Hi].
  rewrite lookup_drop in Hi.
  apply lookup_take_Some in Hi as [Hi Hlt].
  apply (Hbetween (S s + i)); [lia | done].
Qed.

(** A list with both boundaries is cut by them into three parts. *)
Lemma boundaries_cut (s e : nat) :
  s < e →
  instructions !! s = Some (sectionStart keyword) →
  instructions !! e = Some (sectionEnd keyword) →
  instructions
  = take s instructions ++ sectionStart keyword
      :: slice (S s) e instructions ++ sectionEnd keyword
      :: drop (S e) instructions.
Proof.
  intros Hse Hs He.
  rewrite <- (take_drop_middle instructions e (sectionEnd keyword) He) at 1.
  rewrite (app_comm_cons _ _ (sectionStart keyword)), app_assoc. f_equal.
  assert (take e instructions !! s = Some (sectionStart keyword)) as Hs'
    by (by apply lookup_take_Some).
  rewrite <- (take_drop_middle (take e instructions) s _ Hs') at 1.
  unfold slice. f_equal. rewrite take_take. f_equal. lia.
Qed.

Lemma boundaries_extract (s e : nat) :
  isEndBoundary keyword instructions e →
  isStartBoundary keyword instructions e s →
  extractInstructionsFromSection keyword instructions
  = Ok (slice (S s) e instructions).
Proof.
  intros [He Hfirst] (Hse & Hs & Hlast).
  rewrite (boundaries_cut s e Hse Hs He) at 1.
  apply extract_between.
  - apply not_elem_of_take_below. intros i Hi. apply Hfirst. lia.
  - apply not_elem_of_slice_between. intros i Hi. apply Hfirst. lia.
  - by apply not_elem_of_slice_between.
Qed.

Lemma extract_boundaries (section : list string) :
  extractInstructionsFromSection keyword instructions = Ok section →
  ∃ s e, isEndBoundary keyword instructions e
         ∧ isStartBoundary keyword instructions e s
         ∧ section = slice (S s) e instructions.
Proof.
  unfold extractInstructionsFromSection. intros Hok.
  destruct (decide (sectionEnd keyword ∈ instructions)) as [Hin|Hnot].
  2:{ rewrite scanSection_no_end in Hok by done.
      by destruct (lastStart keyword instructions 0 None). }
  apply list_elem_of_split_l in Hin as (before & after & Hcut & Hbefore).
  rewrite Hcut, scanSection_first_end in Hok by done.
  destruct (decide (sectionStart keyword ∈ before)) as [Hin|Hnot].
  2:{ by rewrite lastStart_no_start in Hok by done. }
  apply list_elem_of_split_r in Hin as (pre & section' & Hcut' & Hsection').
  rewrite Hcut', lastStart_last_start in Hok by done. simpl in Hok.
  exists (length pre), (length before). repeat split.
  - rewrite Hcut. by apply list_lookup_middle.
  - intros i Hi Hlook. rewrite Hcut, lookup_app_l in Hlook by done.
    apply Hbefore. apply list_elem_of_lookup. by exists i.
  - rewrite Hcut', length_app. simpl. lia.
  - rewrite Hcut, Hcut', <- app_assoc. by apply list_lookup_middle.
  - intros i [Hlo Hhi] Hlook.
    rewrite Hcut, lookup_app_l in Hlook by done.
    rewrite Hcut' in Hlook, Hhi.
    rewrite (cons_middle _ pre section'), app_assoc in Hlook.
    rewrite lookup_app_r in Hlook by (rewrite length_app; simpl; lia).
    apply Hsection'. apply list_elem_of_lookup. eauto.
  - replace (length pre + 1) with (S (length pre)) in Hok by lia.
    rewrite <- Hcut', <- Hcut in Hok. congruence.
Qed.

End Boundaries.

(** ** Stimulus decoding *)

Lemma buildStimulus_unsupported (tokens : list string) :
  tokens !! 0 ∉ supportedStimulusTypes →
  buildStimulus tokens = Throw (InvalidStimulusType (tokens !! 0)).
Proof.
  intros Hnot. unfold supportedStimulusTypes in Hnot.
  rewrite !not_elem_of_cons in Hnot.
  destruct Hnot as (? & ? & ? & ? & ? & _).
  unfold buildStimulus. by rewrite !decide_False by done.
Qed.

Lemma buildStimulus_throw (tokens : list string) (e : Error) :
  buildStimulus tokens = Throw e → e = InvalidStimulusType (tokens !! 0).
Proof.
  unfold buildStimulus. repeat case_decide; intros Heq; by inversion Heq.
Qed.

Lemma buildStimulus_media (tokens : list string) (tag : string) :
  tag = "audio" ∨ tag = "video" →
  tokens !! 0 = Some tag →
  buildStimulus tokens = Ok (MediaStimulus tag (Some tag)).
Proof.
  intros [-> | ->] Htag; unfold buildStimulus; rewrite Htag;
    repeat (case_decide; [done || congruence |]); done || congruence.
Qed.

Lemma parseStimulusInstruction_throw (line : string) (e : Error) :
  parseStimulusInstruction line = Throw e → ∃ tag, e = InvalidStimulusType tag.
Proof.
  unfold parseStimulusInstruction.
  destruct (buildStimulus _) as [s|e'] eqn:Hbuild; simpl; [done |].
  intros [= <-]. apply buildStimulus_throw in Hbuild. eauto.
Qed.

Lemma parseStimulusLoop_throw (lines : list string)
    (catalog : gmap string Stimulus) (e : Error) :
  parseStimulusLoop lines catalog = Throw e → ∃ tag, e = InvalidStimulusType tag.
Proof.
  revert catalog. induction lines as [|line rest IH]; intros catalog; simpl; [done |].
  destruct (parseStimulusInstruction line) as [entry|e'] eqn:Hline; simpl.
  - apply IH.
  - intros [= <-]. by apply parseStimulusInstruction_throw in Hline.
Qed.

Lemma parseStimulusLoop_rejects (before after : list string) (line : string)
    (catalog : gmap string Stimulus) (e : Error) :
  parseStimulusInstruction line = Throw e →
  ∃ tag, parseStimulusLoop (before ++ line :: after) catalog
         = Throw (InvalidStimulusType tag).
Proof.
  intros Hline. revert catalog.
  induction before as [|first rest IH]; intros catalog; simpl.
  - rewrite Hline. simpl.
    apply parseStimulusInstruction_throw in Hline as [tag ->]. eauto.
  - destruct (parseStimulusInstruction first) as [entry|e'] eqn:Hfirst; simpl.
    + apply IH.
    + apply parseStimulusInstruction_throw in Hfirst as [tag ->]. eauto.
Qed.

Lemma parseStimulusLoop_keeps (lines : list string)
    (catalog final : gmap string Stimulus) (identifier : string) :
  parseStimulusLoop lines catalog = Ok final →
  is_Some (catalog !! identifier) → is_Some (final !! identifier).
Proof.
  revert catalog. induction lines as [|line rest IH]; intros catalog; simpl.
  - by intros [= ->].
  - destruct (parseStimulusInstruction line) as [[key s]|e]; simpl; [|done].
    intros Hrest Hsome. apply (IH _ Hrest).
    rewrite lookup_insert. case_decide; [by eexists | done].
Qed.

Lemma parseStimulusLoop_present (lines : list string)
    (catalog final : gmap string Stimulus) (line identifier : string)
    (s : Stimulus) :
  parseStimulusLoop lines catalog = Ok final →
  line ∈ lines →
  parseStimulusInstruction line = Ok (identifier, s) →
  is_Some (final !! identifier).
Proof.
  revert catalog. induction lines as [|first rest IH]; intros catalog; simpl.
  - intros _ Hin. by apply elem_of_nil in Hin.
  - destruct (parseStimulusInstruction first) as [[key s0]|e] eqn:Hfirst;
      simpl; [|done].
    intros Hrest Hin Hline. apply elem_of_cons in Hin as [-> | Hin].
    + rewrite Hline in Hfirst. injection Hfirst as <- <-.
      apply (parseStimulusLoop_keeps _ _ _ _ Hrest).
      rewrite lookup_insert_eq. by eexists.
    + by apply (IH _ Hrest Hin).
Qed.

(** The loop adds the same entries to whatever catalog it starts from. *)
Lemma parseStimulusLoop_union (lines : list string)
    (catalog final : gmap string Stimulus) :
  parseStimulusLoop lines catalog = Ok final →
  ∃ added : gmap string Stimulus,
    ∀ other, parseStimulusLoop lines other = Ok (added ∪ other).
Proof.
  revert catalog. induction lines as [|line rest IH]; intros catalog; simpl.
  - intros _. exists ∅. intros other. by rewrite (left_id_L ∅ (∪)).
  - destruct (parseStimulusInstruction line) as [[key s]|e]; simpl; [|done].
    intros Hrest. destruct (IH _ Hrest) as [added Hadded].
    exists (added ∪ {[key := s]}). intros other.
    rewrite Hadded. by rewrite insert_union_singleton_l, (assoc_L (∪)).
Qed.

Lemma parseStimulusLoop_again (lines : list string)
    (catalog final : gmap string Stimulus) :
  parseStimulusLoop lines catalog = Ok final →
  parseStimulusLoop lines final = Ok final.
Proof.
  intros Hfirst. destruct (parseStimulusLoop_union _ _ _ Hfirst) as [added Hadded].
  rewrite Hadded in Hfirst. injection Hfirst as <-.
  rewrite Hadded. by rewrite (assoc_L (∪)), (idemp_L (∪)).
Qed.

(** ** Sequence decoding *)

Lemma attachFeedback_choices (feedbackType feedback1 feedback2 : token)
    (sequence attached : Sequence) :
  attachFeedback feedbackType feedback1 feedback2 sequence = Ok attached →
  choices attached = choices sequence.
Proof.
  unfold attachFeedback. repeat case_decide; intros [= <-]; done.
Qed.

Lemma resolveChoices_found (catalog : gmap string Stimulus)
    (identifiers : list string) (stimuli : list Stimulus) :
  resolveChoices catalog identifiers = Ok stimuli →
  Forall2 (λ identifier s, catalog !! identifier = Some s) identifiers stimuli.
Proof.
  revert stimuli. induction identifiers as [|identifier rest IH]; intros stimuli; simpl.
  - intros [= <-]. constructor.
  - unfold getStimulusByIdentifier.
    destruct (catalog !! identifier) as [found|] eqn:Hfound; simpl; [|done].
    destruct (resolveChoices catalog rest) as [others|e]; simpl; [|done].
    intros [= <-]. constructor; [done | by apply IH].
Qed.

(** The first identifier the catalog does not hold is the one reported. *)
Lemma resolveChoices_unknown (catalog : gmap string Stimulus)
    (identifiers : list string) :
  (∃ identifier, identifier ∈ identifiers ∧ catalog !! identifier = None) →
  ∃ unknown, unknown ∈ identifiers ∧ catalog !! unknown = None
    ∧ resolveChoices catalog identifiers
      = Throw (UnknownStimulusIdentifier unknown).
Proof.
  induction identifiers as [|identifier rest IH]; intros (missing & Hin & Hmissing).
  - by apply elem_of_nil in Hin.
  - simpl. unfold getStimulusByIdentifier.
    destruct (catalog !! identifier) as [found|] eqn:Hfound; simpl.
    + apply elem_of_cons in Hin as [-> | Hin]; [congruence |].
      destruct IH as (unknown & Hunknown & Hnone & ->); [by eauto |].
      exists unknown. repeat split; [by right | done].
    + exists identifier. repeat split; [by left | done].
Qed.

(** ** The whole run *)

Lemma sequences_again (pre main post : list Sequence)
    (sequences : gmap string (list Sequence)) :
  let stored :=
    <["post_sequence" := post]>
      (<["main_sequence" := main]> (<["pre_sequence" := pre]> sequences)) in
  <["post_sequence" := post]>
    (<["main_sequence" := main]> (<["pre_sequence" := pre]> stored))
  = stored.
Proof.
  intros stored. apply map_eq. intros name. unfold stored.
  rewrite !lookup_insert. by repeat case_decide.
Qed.

Lemma execute_again (this final : Parser) :
  execute this = Ok final → execute final = Ok final.
Proof.
  unfold execute, splitSection, parseStimulus, parseSequence.
  destruct this as [ins s0 s1 s2 s3 catalog seqs]. simpl.
  destruct (extractInstructionsFromSection "Descriptions" ins) as [d|] eqn:Hd; simpl; [|done].
  destruct (extractInstructionsFromSection "PreSeq" ins) as [p1|] eqn:Hp1; simpl; [|done].
  destruct (extractInstructionsFromSection "MainSeq" ins) as [p2|] eqn:Hp2; simpl; [|done].
  destruct (extractInstructionsFromSection "PostSeq" ins) as [p3|] eqn:Hp3; simpl; [|done].
  destruct (parseStimulusLoop d catalog) as [built|] eqn:Hbuilt; simpl; [|done].
  destruct (parseSequenceLoop built p1 []) as [pre|] eqn:Hpre; simpl; [|done].
  destruct (parseSequenceLoop built p2 []) as [main|] eqn:Hmain; simpl; [|done].
  destruct (parseSequenceLoop built p3 []) as [post|] eqn:Hpost; simpl; [|done].
  intros [= <-]. simpl. rewrite Hd, Hp1, Hp2, Hp3. simpl.
  rewrite (parseStimulusLoop_again _ _ _ Hbuilt). simpl.
  rewrite Hpre, Hmain, Hpost. simpl.
  by rewrite sequences_again.
Qed.

(** ** The catalog as an object *)

Lemma properties_names (s : Stimulus) (key : string) (v : ObjectParser.Value) :
  ObjectParser.properties s key = Some v → key ∈ stimulusPropertyNames.
Proof.
  unfold ObjectParser.properties, stimulusPropertyNames.
  destruct s; simpl; repeat case_decide; subst; try done; intros _; listed.
Qed.

Lemma get_ordinary (d : ObjectParser.Dictionary) (identifier : string) :
  ordinary identifier →
  PlainObject.get ObjectParser.properties d identifier
  = match PlainObject.own d !! identifier with
    | Some s => PlainObject.VObject s
    | None => PlainObject.VUndefined
    end.
Proof.
  intros (Hproto & Hmember & Hname). unfold PlainObject.get.
  destruct (PlainObject.own d !! identifier) as [s|]; [done |].
  assert (PlainObject.fromObjectPrototype d identifier = PlainObject.VUndefined)
    as Hend.
  { unfold PlainObject.fromObjectPrototype. by rewrite !decide_False. }
  destruct (PlainObject.prototype d) as [o|]; [| done].
  destruct (ObjectParser.properties o identifier) as [v|] eqn:Hv; [| done].
  by apply properties_names in Hv.
Qed.

Lemma getStimulusByIdentifier_ordinary (zeroOrNaN : number → bool)
    (d : ObjectParser.Dictionary) (identifier : string) :
  ordinary identifier →
  ObjectParser.getStimulusByIdentifier zeroOrNaN d identifier
  = onReturn PlainObject.VObject
      (getStimulusByIdentifier (PlainObject.own d) identifier).
Proof.
  intros Hordinary.
  unfold ObjectParser.getStimulusByIdentifier, getStimulusByIdentifier.
  rewrite (get_ordinary _ _ Hordinary).
  by destruct (PlainObject.own d !! identifier).
Qed.

Lemma resolveChoices_ordinary (zeroOrNaN : number → bool)
    (d : ObjectParser.Dictionary) (identifiers : list string) :
  Forall ordinary identifiers →
  ObjectParser.resolveChoices zeroOrNaN d identifiers
  = onReturn (fmap PlainObject.VObject)
      (resolveChoices (PlainObject.own d) identifiers).
Proof.
  induction 1 as [|identifier rest Hordinary _ IH]; simpl; [done |].
  rewrite (getStimulusByIdentifier_ordinary _ _ _ Hordinary), IH.
  destruct (getStimulusByIdentifier (PlainObject.own d) identifier); simpl; [| done].
  by destruct (resolveChoices (PlainObject.own d) rest).
Qed.

Lemma choicesOf_ordinary (zeroOrNaN : number → bool)
    (d : ObjectParser.Dictionary) (choices : token) :
  (∀ c, choices = Some c → Forall ordinary (split "," c)) →
  ObjectParser.choicesOf zeroOrNaN d choices
  = onReturn ofChoices (choicesOf (PlainObject.own d) choices).
Proof.
  intros Hordinary. unfold ObjectParser.choicesOf, choicesOf.
  destruct choices as [c|]; [| done].
  destruct (decide (c = "n")); [done |].
  rewrite (resolveChoices_ordinary _ _ _ (Hordinary c eq_refl)).
  by destruct (resolveChoices (PlainObject.own d) (split "," c)).
Qed.

Lemma attachFeedback_ofSequence (feedbackType feedback1 feedback2 : token)
    (sequence : Sequence) :
  ObjectParser.attachFeedback feedbackType feedback1 feedback2 (ofSequence sequence)
  = onReturn ofSequence (attachFeedback feedbackType feedback1 feedback2 sequence).
Proof.
  unfold ObjectParser.attachFeedback, attachFeedback. by repeat case_decide.
Qed.

Lemma set_other (d : ObjectParser.Dictionary) (key : string) (o : Stimulus) :
  key ≠ "__proto__" →
  PlainObject.set d key o
  = PlainObject.mkDictionary (<[key := o]> (PlainObject.own d)) (PlainObject.prototype d).
Proof.
  intros Hkey. unfold PlainObject.set. rewrite decide_False; [done |].
  by intros [? _].
Qed.

Lemma set_proto (d : ObjectParser.Dictionary) (o : Stimulus) :
  PlainObject.own d !! "__proto__" = None →
  PlainObject.set d "__proto__" o = PlainObject.mkDictionary (PlainObject.own d) (Some o).
Proof. intros Hnone. unfold PlainObject.set. by rewrite decide_True. Qed.

(** A line that stores under a name other than [identifier] leaves the own property
    [identifier] alone; so does a line that stores under [__proto__]. *)
Lemma set_own_ne (d : ObjectParser.Dictionary) (key identifier : string) (o : Stimulus) :
  key ≠ identifier →
  PlainObject.own (PlainObject.set d key o) !! identifier = PlainObject.own d !! identifier.
Proof.
  intros Hne. unfold PlainObject.set. case_decide; simpl; [done |].
  by rewrite lookup_insert_ne.
Qed.

Lemma set_own_eq (d : ObjectParser.Dictionary) (key : string) (o : Stimulus) :
  key ≠ "__proto__" →
  PlainObject.own (PlainObject.set d key o) !! key = Some o.
Proof.
  intros Hne. rewrite set_other by done. simpl. apply lookup_insert_eq.
Qed.

Lemma set_own_proto (d : ObjectParser.Dictionary) (key : string) (o : Stimulus) :
  PlainObject.own d !! "__proto__" = None →
  PlainObject.own (PlainObject.set d key o) !! "__proto__" = None.
Proof.
  intros Hnone. unfold PlainObject.set. case_decide as Hcase; simpl; [done |].
  rewrite lookup_insert_ne; [done |]. intros ->. apply Hcase. by split.
Qed.

Lemma set_prototype_ne (d : ObjectParser.Dictionary) (key : string) (o : Stimulus) :
  key ≠ "__proto__" →
  PlainObject.prototype (PlainObject.set d key o) = PlainObject.prototype d.
Proof. intros Hne. by rewrite set_other. Qed.

Lemma objectLoop_untouched (lines : list string)
    (d final : ObjectParser.Dictionary) (identifier : string) :
  ObjectParser.parseStimulusLoop lines d = Ok final →
  (∀ line s, line ∈ lines → parseStimulusInstruction line ≠ Ok (identifier, s)) →
  PlainObject.own final !! identifier = PlainObject.own d !! identifier.
Proof.
  revert d. induction lines as [|line rest IH]; intros d; simpl.
  - by intros [= ->].
  - destruct (parseStimulusInstruction line) as [[key s]|e] eqn:Hline; simpl; [|done].
    intros Hrest Hother. rewrite (IH _ Hrest).
    + apply set_own_ne. intros ->. apply (Hother line s); [left | done].
    + intros line' s' Hin. apply Hother. by right.
Qed.

Lemma objectLoop_last (lines : list string)
    (d final : ObjectParser.Dictionary) (i : nat) (line identifier : string)
    (s : Stimulus) :
  ObjectParser.parseStimulusLoop lines d = Ok final →
  lines !! i = Some line →
  parseStimulusInstruction line = Ok (identifier, s) →
  identifier ≠ "__proto__" →
  (∀ j later s', i < j → lines !! j = Some later →
     parseStimulusInstruction later ≠ Ok (identifier, s')) →
  PlainObject.own final !! identifier = Some s.
Proof.
  intros Hloop Hi Hline Hne. revert d i Hloop Hi.
  induction lines as [|first rest IH]; intros d i; [done |].
  simpl. destruct (parseStimulusInstruction first) as [[key s0]|e] eqn:Hfirst;
    simpl; [|done].
  intros Hrest Hi Hlater. destruct i as [|i]; simpl in Hi.
  - injection Hi as ->. rewrite Hline in Hfirst. injection Hfirst as <- <-.
    rewrite (objectLoop_untouched _ _ _ identifier Hrest).
    + by apply set_own_eq.
    + intros later s' Hin. apply list_elem_of_lookup in Hin as [j Hj].
      apply (Hlater (S j)); [lia | done].
  - apply (IH _ i Hrest Hi).
    intros j later s' Hij Hj. apply (Hlater (S j)); [lia | done].
Qed.

Lemma objectLoop_own_proto (lines : list string) (d final : ObjectParser.Dictionary) :
  ObjectParser.parseStimulusLoop lines d = Ok final →
  PlainObject.own d !! "__proto__" = None →
  PlainObject.own final !! "__proto__" = None.
Proof.
  revert d. induction lines as [|line rest IH]; intros d; simpl.
  - by intros [= ->].
  - destruct (parseStimulusInstruction line) as [[key s]|e]; simpl; [|done].
    intros Hrest Hnone. apply (IH _ Hrest). by apply set_own_proto.
Qed.

Lemma objectLoop_prototype_untouched (lines : list string)
    (d final : ObjectParser.Dictionary) :
  ObjectParser.parseStimulusLoop lines d = Ok final →
  (∀ line s, line ∈ lines → parseStimulusInstruction line ≠ Ok ("__proto__", s)) →
  PlainObject.prototype final = PlainObject.prototype d.
Proof.
  revert d. induction lines as [|line rest IH]; intros d; simpl.
  - by intros [= ->].
  - destruct (parseStimulusInstruction line) as [[key s]|e] eqn:Hline; simpl; [|done].
    intros Hrest Hother. rewrite (IH _ Hrest).
    + apply set_prototype_ne. intros ->. apply (Hother line s); [left | done].
    + intros line' s' Hin. apply Hother. by right.
Qed.

Lemma objectLoop_prototype_last (lines : list string)
    (d final : ObjectParser.Dictionary) (i : nat) (line : string) (s : Stimulus) :
  ObjectParser.parseStimulusLoop lines d = Ok final →
  PlainObject.own d !! "__proto__" = None →
  lines !! i = Some line →
  parseStimulusInstruction line = Ok ("__proto__", s) →
  (∀ j later s', i < j → lines !! j = Some later →
     parseStimulusInstruction later ≠ Ok ("__proto__", s')) →
  PlainObject.prototype final = Some s.
Proof.
  intros Hloop Hnone Hi Hline. revert d i Hloop Hnone Hi.
  induction lines as [|first rest IH]; intros d i; [done |].
  simpl. destruct (parseStimulusInstruction first) as [[key s0]|e] eqn:Hfirst;
    simpl; [|done].
  intros Hrest Hnone Hi Hlater. destruct i as [|i]; simpl in Hi.
  - injection Hi as ->. rewrite Hline in Hfirst. injection Hfirst as <- <-.
    rewrite (objectLoop_prototype_untouched _ _ _ Hrest).
    + by rewrite set_proto.
    + intros later s' Hin. apply list_elem_of_lookup in Hin as [j Hj].
      apply (Hlater (S j)); [lia | done].
  - apply (IH _ i Hrest); [by apply set_own_proto | done |].
    intros j later s' Hij Hj. apply (Hlater (S j)); [lia | done].
Qed.

Lemma set_own_is_Some (d : ObjectParser.Dictionary) (k key : string) (o : Stimulus) :
  is_Some (PlainObject.own (PlainObject.set d k o) !! key)
  ↔ is_Some (PlainObject.own d !! key) ∨ (k = key ∧ key ≠ "__proto__").
Proof.
  unfold PlainObject.set. case_decide as Hcase; simpl.
  - split; [by left |]. intros [Hold | [-> Hne]]; [done |]. by destruct Hcase.
  - rewrite lookup_insert. case_decide as Hk; [subst k |].
    + split; [| by eexists]. intros _.
      destruct (decide (key = "__proto__")) as [->|Hne]; [| by right].
      left. destruct (PlainObject.own d !! "__proto__") eqn:Hown; [by eexists |].
      by destruct Hcase.
    + split; [by left |]. by intros [Hold | [-> _]].
Qed.

Lemma objectLoop_keys (lines : list string) (d final : ObjectParser.Dictionary)
    (key : string) :
  ObjectParser.parseStimulusLoop lines d = Ok final →
  is_Some (PlainObject.own final !! key)
  ↔ is_Some (PlainObject.own d !! key)
    ∨ (key ≠ "__proto__"
       ∧ ∃ line s, line ∈ lines ∧ parseStimulusInstruction line = Ok (key, s)).
Proof.
  revert d. induction lines as [|line rest IH]; intros d; simpl.
  - intros [= ->]. split; [by left |].
    intros [Hold | (_ & line & s & Hin & _)]; [done |].
    by apply elem_of_nil in Hin.
  - destruct (parseStimulusInstruction line) as [[k s0]|e] eqn:Hline; simpl; [| done].
    intros Hrest. rewrite (IH _ Hrest), set_own_is_Some. split.
    + intros [[Hold | [-> Hne]] | (Hne & line' & s' & Hin & Hline')].
      * by left.
      * right. split; [done |]. exists line, s0. split; [left | done].
      * right. split; [done |]. exists line', s'. split; [by right | done].
    + intros [Hold | (Hne & line' & s' & Hin & Hline')]; [by left; left |].
      apply elem_of_cons in Hin as [-> | Hin].
      * rewrite Hline in Hline'. injection Hline' as -> _. left. by right.
      * right. split; [done |]. by exists line', s'.
Qed.


Lemma members_are_no_properties (s : Stimulus) (name : string) :
  name ∈ PlainObject.objectPrototypeMembers →
  ObjectParser.properties s name = None.
Proof.
  intros Hin. destruct (ObjectParser.properties s name) as [v|] eqn:Hv; [| done].
  apply properties_names in Hv. exfalso. revert Hv.
  unfold PlainObject.objectPrototypeMembers in Hin.
  repeat (apply elem_of_cons in Hin as [-> | Hin];
          [unfold stimulusPropertyNames; absent_from_literal |]).
  by apply elem_of_nil in Hin.
Qed.

Lemma getStimulusByIdentifier_member (zeroOrNaN : number → bool)
    (d : ObjectParser.Dictionary) (name : string) :
  name ∈ PlainObject.objectPrototypeMembers →
  PlainObject.own d !! name = None →
  ObjectParser.getStimulusByIdentifier zeroOrNaN d name
  = Ok (PlainObject.VFunction name).
Proof.
  intros Hin Hnone.
  assert (name ≠ "__proto__") as Hne.
  { intros ->. revert Hin. unfold PlainObject.objectPrototypeMembers.
    absent_from_literal. }
  unfold ObjectParser.getStimulusByIdentifier, PlainObject.get.
  rewrite Hnone.
  assert (PlainObject.fromObjectPrototype d name = PlainObject.VFunction name)
    as Hend.
  { unfold PlainObject.fromObjectPrototype.
    by rewrite decide_False, decide_True. }
  destruct (PlainObject.prototype d) as [o|].
  - by rewrite members_are_no_properties, Hend.
  - by rewrite Hend.
Qed.

Lemma resolveChoices_members (zeroOrNaN : number → bool)
    (d : ObjectParser.Dictionary) (names : list string) :
  (∀ name, name ∈ names →
     name ∈ PlainObject.objectPrototypeMembers ∧ PlainObject.own d !! name = None) →
  ObjectParser.resolveChoices zeroOrNaN d names
  = Ok (PlainObject.VFunction <$> names).
Proof.
  induction names as [|name rest IH]; intros Hall; simpl; [done |].
  destruct (Hall name) as [Hin Hnone]; [left |].
  rewrite (getStimulusByIdentifier_member _ _ _ Hin Hnone). simpl.
  rewrite IH; [done |]. intros other Hother. apply Hall. by right.
Qed.

Lemma object_attachFeedback_legal (feedbackType feedback1 feedback2 : token)
    (sequence : ObjectParser.Sequence) :
  feedbackType ∈ feedbackTypes →
  ∃ attached,
    ObjectParser.attachFeedback feedbackType feedback1 feedback2 sequence
    = Ok attached
    ∧ ObjectParser.choices attached = ObjectParser.choices sequence.
Proof.
  unfold ObjectParser.attachFeedback, feedbackTypes. intros Hin.
  repeat (apply elem_of_cons in Hin as [-> | Hin];
          [repeat (case_decide; [by eauto |]); done |]).
  by apply elem_of_nil in Hin.
Qed.

Lemma object_attachFeedback_illegal (feedbackType feedback1 feedback2 : token)
    (sequence : ObjectParser.Sequence) :
  feedbackType ∉ feedbackTypes →
  ObjectParser.attachFeedback feedbackType feedback1 feedback2 sequence
  = Throw (InvalidFeedbackType feedbackType).
Proof.
  unfold ObjectParser.attachFeedback, feedbackTypes. intros Hnot.
  repeat (case_decide; [subst; exfalso; apply Hnot; listed |]). done.
Qed.

(** * Main results *)

(** ** Tokenizer *)

(** C6. The tokenizer scans its input followed by one more [splitChar]; when
    the pair is closed at the end of the input, this flushes the word in
    progress as the last token.  No token holds [pairChar].  While the pair
    is open a [splitChar] is added to the word in progress like any other
    character, so a span between two pair characters is kept whole.  The two
    worked examples evaluate as stated. *)
Theorem tokenizer_contract (text : string) (splitChar pairChar : ascii) :
  splitWithEscapedCharacter text splitChar pairChar
  = resultArray (splitLoop splitChar pairChar splitInit
                   (text +:+ String splitChar EmptyString))
  ∧ (splitChar ≠ pairChar →
     isPairOpen (splitLoop splitChar pairChar splitInit text) = false →
     splitWithEscapedCharacter text splitChar pairChar
     = resultArray (splitLoop splitChar pairChar splitInit text)
       ++ [wordBuffer (splitLoop splitChar pairChar splitInit text)])
  ∧ (∀ word, word ∈ splitWithEscapedCharacter text splitChar pairChar →
       occurs pairChar word = false)
  ∧ (∀ st, splitChar ≠ pairChar → isPairOpen st = true →
       splitStep splitChar pairChar st splitChar
       = mkSplitState true (resultArray st) (push (wordBuffer st) splitChar))
  ∧ (∀ res buffer span, occurs pairChar span = false →
       splitLoop splitChar pairChar (mkSplitState false res buffer)
         (String pairChar (span +:+ String pairChar EmptyString))
       = mkSplitState false res (buffer +:+ span))
  ∧ splitWithEscapedCharacter
      ("a " +:+ String doubleQuote ("b c" +:+ String doubleQuote " d"))
      space doubleQuote
    = ["a"; "b c"; "d"]
  ∧ splitWithEscapedCharacter "x" space doubleQuote = ["x"].
Proof.
  split; [done |]. split; [| split; [| split; [| split; [| split]]]].
  - intros Hne Hclosed. unfold splitWithEscapedCharacter.
    rewrite splitLoop_append. simpl. unfold splitStep.
    rewrite decide_False by done. rewrite decide_True by done.
    by rewrite Hclosed.
  - intros word Hword. unfold splitWithEscapedCharacter in Hword.
    assert (pairFree pairChar
              (splitLoop splitChar pairChar splitInit
                 (text +:+ String splitChar EmptyString))) as [_ Hall].
    { apply splitLoop_pairFree. split; [done | constructor]. }
    rewrite Forall_forall in Hall. by apply Hall.
  - intros st Hne Hopen. unfold splitStep.
    rewrite decide_False by done. rewrite decide_True by done.
    by rewrite Hopen.
  - intros res buffer span Hspan. simpl. unfold splitStep at 1.
    rewrite decide_True by done. simpl.
    rewrite splitLoop_append, splitLoop_open by done. simpl.
    unfold splitStep. by rewrite decide_True by done.
  - by vm_compute.
  - by vm_compute.
Qed.

Lemma tokenizer_contract_witness :
  splitWithEscapedCharacter "a b" space doubleQuote = ["a"] ++ ["b"]
  ∧ occurs doubleQuote "b" = false.
Proof.
  destruct (tokenizer_contract "a b" space doubleQuote)
    as (_ & Hflush & Hword & _).
  split.
  - apply Hflush; [by vm_compute | reflexivity].
  - apply Hword. vm_compute. right. left.
Defined.

(** C10. On a text without the pair character (the split and pair
    characters being two different characters, as in every call of the
    source) the tokenizer returns what the built-in [split] returns, empty
    tokens included.  In particular the tokenization of stimulus lines and
    the [split(" ")] of sequence lines agree on lines without a double quote. *)
Theorem split_agrees_without_quotes (text : string) (splitChar pairChar : ascii) :
  (splitChar ≠ pairChar → occurs pairChar text = false →
   splitWithEscapedCharacter text splitChar pairChar = split splitChar text)
  ∧ (occurs doubleQuote text = false →
     splitWithEscapedCharacter text space doubleQuote = split " " text).
Proof.
  assert (∀ d q, d ≠ q → occurs q text = false →
            splitWithEscapedCharacter text d q = split d text) as Hgeneral.
  { intros d q Hne Hfree. unfold splitWithEscapedCharacter, splitInit.
    rewrite splitLoop_closed by done. simpl.
    pose proof (split_nonempty d text) as Hsome.
    by destruct (split d text). }
  split; [apply Hgeneral |].
  intros Hfree. by apply Hgeneral.
Qed.

Lemma split_agrees_without_quotes_witness :
  splitWithEscapedCharacter "0 s1  inf n" space doubleQuote
  = ["0"; "s1"; EmptyString; "inf"; "n"].
Proof.
  rewrite (proj2 (split_agrees_without_quotes "0 s1  inf n" space doubleQuote));
    reflexivity.
Defined.

(** ** Section extraction *)

(** C3, as the loop behaves.  Extraction returns exactly when the first end
    marker of the list has a start marker before it; its end boundary is then
    the first index whose line is the end marker, its start boundary the last
    index before that one whose line is the start marker, and the result is
    the lines strictly between the two. *)
Theorem section_boundaries (keyword : string) (instructions section : list string) :
  extractInstructionsFromSection keyword instructions = Ok section
  ↔ ∃ s e, isEndBoundary keyword instructions e
           ∧ isStartBoundary keyword instructions e s
           ∧ section = slice (S s) e instructions.
Proof.
  split.
  - apply extract_boundaries.
  - intros (s & e & He & Hs & ->). by apply boundaries_extract.
Qed.

Lemma section_boundaries_witness :
  extractInstructionsFromSection "PreSeq" ["[PreSeq]"; "x"; "[EndPreSeq]"]
  = Ok ["x"].
Proof.
  apply (proj2 (section_boundaries "PreSeq" ["[PreSeq]"; "x"; "[EndPreSeq]"] ["x"])).
  exists 0, 2. split; [| split].
  - split; [reflexivity |].
    intros i Hi. destruct i as [|[|i]]; [discriminate | discriminate | lia].
  - split; [lia |]. split; [reflexivity |].
    intros i Hi. destruct i as [|[|i]]; [lia | discriminate | lia].
  - reflexivity.
Defined.

(** C3, as the specification words it, fails.  With two start markers the
    loop keeps the later one, and an end marker met before any start marker
    stops the loop although a complete section follows. *)
Lemma section_first_start_counterexample :
  (let instructions := ["[PreSeq]"; "a"; "[PreSeq]"; "b"; "[EndPreSeq]"] in
   isFirstStart "PreSeq" instructions 0
   ∧ isFirstEndAfter "PreSeq" instructions 0 4
   ∧ extractInstructionsFromSection "PreSeq" instructions = Ok ["b"]
   ∧ extractInstructionsFromSection "PreSeq" instructions
     ≠ Ok (slice 1 4 instructions))
  ∧ (let instructions := ["[EndPreSeq]"; "[PreSeq]"; "x"; "[EndPreSeq]"] in
     isFirstStart "PreSeq" instructions 1
     ∧ isFirstEndAfter "PreSeq" instructions 1 3
     ∧ extractInstructionsFromSection "PreSeq" instructions
       = Throw (SectionNotFound "PreSeq")).
Proof.
  split; simpl.
  - split; [| split; [| split]].
    + split; [reflexivity | intros i Hi; lia].
    + split; [lia |]. split; [reflexivity |].
      intros i Hi.
      destruct i as [|[|[|[|i]]]]; [lia | discriminate.. | lia].
    + reflexivity.
    + discriminate.
  - split; [| split].
    + split; [reflexivity |].
      intros i Hi. destruct i as [|i]; [discriminate | lia].
    + split; [lia |]. split; [reflexivity |].
      intros i Hi. destruct i as [|[|[|i]]]; [lia | lia | discriminate | lia].
    + reflexivity.
Qed.

(** C5 on [Parser]: when the list has no start marker or no end marker,
    extraction throws the section error. *)
Theorem missing_marker_rejected (keyword : string) (instructions : list string) :
  sectionStart keyword ∉ instructions ∨ sectionEnd keyword ∉ instructions →
  extractInstructionsFromSection keyword instructions
  = Throw (SectionNotFound keyword).
Proof.
  intros Hmissing. unfold extractInstructionsFromSection.
  destruct (decide (sectionEnd keyword ∈ instructions)) as [Hin|Hnot].
  - destruct Hmissing as [Hstart|Hend]; [|done].
    apply list_elem_of_split_l in Hin as (before & after & -> & Hbefore).
    rewrite scanSection_first_end by done.
    rewrite lastStart_no_start; [done |].
    intros Hin. apply Hstart. apply elem_of_app. by left.
  - rewrite scanSection_no_end by done.
    by destruct (lastStart keyword instructions 0 None).
Qed.

Lemma missing_marker_rejected_witness :
  extractInstructionsFromSection "PreSeq" ["[PreSeq]"; "x"]
  = Throw (SectionNotFound "PreSeq").
Proof.
  apply missing_marker_rejected. right. absent_from_literal.
Defined.

(** C5 on [LegacyParser]: a list with an end marker and no start marker is
    accepted, and the lines before the end marker are returned, where
    [Parser] throws. *)
Theorem legacy_missing_start_accepted :
  (sectionStart "PreSeq" ∉ ["x"; "[EndPreSeq]"])
  ∧ LegacyParser.extractInstructionsFromSection "PreSeq" ["x"; "[EndPreSeq]"]
    = Ok ["x"]
  ∧ extractInstructionsFromSection "PreSeq" ["x"; "[EndPreSeq]"]
    = Throw (SectionNotFound "PreSeq").
Proof.
  split; [absent_from_literal | split; reflexivity].
Qed.

(** ** Stimulus decoding *)

(** C1 at a concrete line.  For an [audio] line the object stored in the
    catalog has the type tag itself as [filePath], not the third token of the
    line; the [image] and [text_file] cases read theirs from the tokens after
    the first two. *)
Theorem media_filePath_is_type_tag :
  splitWithEscapedCharacter "audio A1 snd/beep.wav" space doubleQuote
  = ["audio"; "A1"; "snd/beep.wav"]
  ∧ parseStimulusInstruction "audio A1 snd/beep.wav"
    = Ok ("A1", MediaStimulus "audio" (Some "audio"))
  ∧ filePathOf (MediaStimulus "audio" (Some "audio")) ≠ Some (Some "snd/beep.wav")
  ∧ (∃ s, parseStimulusInstruction "text_file T1 txt/a.txt n n" = Ok ("T1", s)
          ∧ filePathOf s = Some (Some "txt/a.txt")).
Proof.
  split; [by vm_compute |]. split; [by vm_compute |]. split; [discriminate |].
  eexists. split; [by vm_compute | reflexivity].
Qed.

(** For every [audio] or [video] line the [filePath] is the first token. *)
Lemma media_filePath_first_token (line tag identifier : string) (s : Stimulus) :
  tag = "audio" ∨ tag = "video" →
  splitWithEscapedCharacter line space doubleQuote !! 0 = Some tag →
  parseStimulusInstruction line = Ok (identifier, s) →
  filePathOf s = Some (Some tag).
Proof.
  intros Htag Hfirst. unfold parseStimulusInstruction.
  rewrite (buildStimulus_media _ tag Htag Hfirst). simpl.
  by intros [= _ <-].
Qed.

(** C7. A stimulus line whose first token is none of [image], [text],
    [text_file], [audio], [video] (so also [instruction] and [result]) makes
    the decoding of the line throw the stimulus-type error, and makes the
    decoding of any section that holds the line throw such an error: no
    catalog is produced. *)
Theorem unsupported_stimulus_type_rejected (line : string) :
  splitWithEscapedCharacter line space doubleQuote !! 0 ∉ supportedStimulusTypes →
  parseStimulusInstruction line
  = Throw (InvalidStimulusType (splitWithEscapedCharacter line space doubleQuote !! 0))
  ∧ ∀ before after catalog, ∃ tag,
      parseStimulusLoop (before ++ line :: after) catalog
      = Throw (InvalidStimulusType tag).
Proof.
  intros Hnot.
  assert (parseStimulusInstruction line
          = Throw (InvalidStimulusType
                     (splitWithEscapedCharacter line space doubleQuote !! 0)))
    as Hline.
  { unfold parseStimulusInstruction.
    by rewrite (buildStimulus_unsupported _ Hnot). }
  split; [done |].
  intros before after catalog. by eapply parseStimulusLoop_rejects.
Qed.

Lemma unsupported_stimulus_type_rejected_witness :
  parseStimulusInstruction "instruction N1 txt/intro.txt"
  = Throw (InvalidStimulusType (Some "instruction"))
  ∧ parseStimulusInstruction "result R1"
    = Throw (InvalidStimulusType (Some "result")).
Proof.
  split.
  - apply (unsupported_stimulus_type_rejected "instruction N1 txt/intro.txt").
    vm_compute. absent_from_literal.
  - apply (unsupported_stimulus_type_rejected "result R1").
    vm_compute. absent_from_literal.
Defined.

(** C8 at a concrete line.  For the line [image __proto__ a.png true] the
    body of the loop computes the key [__proto__] and the image object, and
    the assignment [this.stimulus[identifier] = stimulus] then creates no
    key: the catalog stays without keys and the object becomes its
    prototype.  The same line with the identifier [I1] gives the catalog
    the key [I1]. *)
Theorem proto_identifier_is_no_key :
  let image := ImageStimulus "image" (Some "a.png") true in
  parseStimulusInstruction "image __proto__ a.png true" = Ok ("__proto__", image)
  ∧ ObjectParser.parseStimulusLoop ["image __proto__ a.png true"] PlainObject.empty
    = Ok (PlainObject.mkDictionary ∅ (Some image))
  ∧ ObjectParser.parseStimulusLoop ["image I1 a.png true"] PlainObject.empty
    = Ok (PlainObject.mkDictionary {["I1" := image]} None).
Proof. split; [by vm_compute |]. split; by vm_compute. Qed.

(** C8 for every other identifier.  When the stimulus section decodes, the
    catalog maps an identifier other than [__proto__] to the object of the
    last line that has this identifier, and every such identifier of a line
    is a key of the catalog. *)
Theorem other_identifiers_last_write_wins (lines : list string)
    (d final : ObjectParser.Dictionary) :
  ObjectParser.parseStimulusLoop lines d = Ok final →
  (∀ i line identifier s,
     lines !! i = Some line →
     parseStimulusInstruction line = Ok (identifier, s) →
     identifier ≠ "__proto__" →
     (∀ j later s', i < j → lines !! j = Some later →
        parseStimulusInstruction later ≠ Ok (identifier, s')) →
     PlainObject.own final !! identifier = Some s)
  ∧ (∀ line identifier s,
       line ∈ lines →
       parseStimulusInstruction line = Ok (identifier, s) →
       identifier ≠ "__proto__" →
       identifier ∈ (map_to_list (PlainObject.own final)).*1).
Proof.
  intros Hloop. split.
  - intros i line identifier s. by apply (objectLoop_last lines d).
  - intros line identifier s Hin Hline Hne.
    destruct (proj2 (objectLoop_keys _ _ _ identifier Hloop)) as [s' Hs'].
    { right. split; [done |]. by exists line, s. }
    apply list_elem_of_fmap. exists (identifier, s'). split; [done |].
    by apply elem_of_map_to_list.
Qed.

Lemma other_identifiers_last_write_wins_witness :
  ∃ final,
    ObjectParser.parseStimulusLoop
      ["image I1 img/3.png true"; "image I1 img/4.png"] PlainObject.empty = Ok final
    ∧ PlainObject.own final !! "I1"
      = Some (ImageStimulus "image" (Some "img/4.png") false).
Proof.
  destruct (ObjectParser.parseStimulusLoop
              ["image I1 img/3.png true"; "image I1 img/4.png"] PlainObject.empty)
    as [final|e] eqn:Hloop; [| by vm_compute in Hloop].
  exists final. split; [done |].
  apply (proj1 (other_identifiers_last_write_wins _ _ _ Hloop) 1 "image I1 img/4.png").
  - reflexivity.
  - by vm_compute.
  - discriminate.
  - intros j later s' Hj Hlater. destruct j as [|[|j]]; [lia | lia | discriminate].
Defined.

(** ** Sequence decoding *)

(** C2. When a sequence line decodes, the object has [feedback1] and
    [feedback2] as follows, the feedback type being the ninth token: for [a]
    both are attached, with the eleventh and twelfth tokens as values; for
    [tf] only [feedback2] is attached, with the twelfth token; for [n] and
    [c] neither is attached.  No other feedback type decodes. *)
Theorem feedback_rule (catalog : gmap string Stimulus) (line : string)
    (sequence : Sequence) :
  parseSequenceInstruction catalog line = Ok sequence →
  feedbackType sequence = split " " line !! 8
  ∧ (feedbackType sequence = Some "a" →
     feedback1 sequence = Some (split " " line !! 10)
     ∧ feedback2 sequence = Some (split " " line !! 11))
  ∧ (feedbackType sequence = Some "tf" →
     feedback1 sequence = None
     ∧ feedback2 sequence = Some (split " " line !! 11))
  ∧ (feedbackType sequence = Some "n" ∨ feedbackType sequence = Some "c" →
     feedback1 sequence = None ∧ feedback2 sequence = None)
  ∧ feedbackType sequence ∈ [Some "a"; Some "tf"; Some "n"; Some "c"].
Proof.
  unfold parseSequenceInstruction.
  destruct (choicesOf catalog (split " " line !! 3)) as [resolved|e]; simpl; [|done].
  unfold attachFeedback.
  repeat case_decide; intros [= <-]; simpl;
    (split; [done |]);
    (split; [intros ?; by (done || congruence) |]);
    (split; [intros ?; by (done || congruence) |]);
    (split; [intros [? | ?]; by (done || congruence) |]);
    match goal with H : _ = Some _ |- _ => rewrite H end; set_solver.
Qed.

Lemma feedback_rule_witness :
  ∃ sequence,
    parseSequenceInstruction ∅ "0 s1 inf n 100 1 0 n a 10 F1 F2 y" = Ok sequence
    ∧ feedback1 sequence = Some (Some "F1")
    ∧ feedback2 sequence = Some (Some "F2").
Proof.
  destruct (parseSequenceInstruction ∅ "0 s1 inf n 100 1 0 n a 10 F1 F2 y")
    as [sequence|e] eqn:Hline; [| by vm_compute in Hline].
  exists sequence. split; [done |].
  destruct (feedback_rule _ _ _ Hline) as (Htype & Halways & _).
  apply Halways. by rewrite Htype.
Defined.

(** The older decoder attaches the two properties by the same rule. *)
Lemma legacy_feedback_rule {Entity : Type} (catalog : gmap string Entity)
    (line : string) (sequence : LegacyParser.Sequence Entity) :
  LegacyParser.parseSequenceInstruction catalog line = Ok sequence →
  LegacyParser.feedbackType sequence = split " " line !! 8
  ∧ (LegacyParser.feedbackType sequence = Some "a" →
     LegacyParser.feedback1 sequence = Some (split " " line !! 10)
     ∧ LegacyParser.feedback2 sequence = Some (split " " line !! 11))
  ∧ (LegacyParser.feedbackType sequence = Some "tf" →
     LegacyParser.feedback1 sequence = None
     ∧ LegacyParser.feedback2 sequence = Some (split " " line !! 11))
  ∧ (LegacyParser.feedbackType sequence = Some "n"
     ∨ LegacyParser.feedbackType sequence = Some "c" →
     LegacyParser.feedback1 sequence = None
     ∧ LegacyParser.feedback2 sequence = None).
Proof.
  unfold LegacyParser.parseSequenceInstruction.
  destruct (LegacyParser.choicesOf catalog (split " " line !! 3))
    as [resolved|e]; simpl; [|done].
  unfold LegacyParser.attachFeedback.
  repeat case_decide; intros [= <-]; simpl;
    (split; [done |]);
    (split; [intros ?; by (done || congruence) |]);
    (split; [intros ?; by (done || congruence) |]);
    intros [? | ?]; by (done || congruence).
Qed.

(** C4 on [Parser], on the own properties of the catalog.  For a sequence
    line whose fourth token is not [n]: when the line decodes, its [choices]
    are the catalog entries of the comma-separated identifiers, in their
    order; when the catalog lacks one of the identifiers, the line throws
    the unknown-identifier error, for the first such identifier. *)
Theorem choices_resolved_or_rejected (catalog : gmap string Stimulus)
    (line identifiers : string) :
  split " " line !! 3 = Some identifiers →
  identifiers ≠ "n" →
  (∀ sequence,
     parseSequenceInstruction catalog line = Ok sequence →
     ∃ stimuli,
       choices sequence = ChoiceList stimuli
       ∧ Forall2 (λ identifier s, catalog !! identifier = Some s)
           (split "," identifiers) stimuli)
  ∧ ((∃ identifier,
        identifier ∈ split "," identifiers ∧ catalog !! identifier = None) →
     ∃ unknown,
       unknown ∈ split "," identifiers ∧ catalog !! unknown = None
       ∧ parseSequenceInstruction catalog line
         = Throw (UnknownStimulusIdentifier unknown)).
Proof.
  intros Htoken Hnot. unfold parseSequenceInstruction.
  rewrite Htoken. unfold choicesOf. rewrite decide_False by done. split.
  - intros sequence.
    destruct (resolveChoices catalog (split "," identifiers))
      as [stimuli|e] eqn:Hresolve; simpl; [|done].
    intros Hattach. apply attachFeedback_choices in Hattach. simpl in Hattach.
    exists stimuli. split; [done | by apply resolveChoices_found].
  - intros Hmissing.
    destruct (resolveChoices_unknown catalog _ Hmissing)
      as (unknown & Hin & Hnone & ->).
    by exists unknown.
Qed.

Lemma choices_resolved_or_rejected_witness :
  ∃ unknown,
    parseSequenceInstruction
      {["I1" := ImageStimulus "image" (Some "img/3.png") true]}
      "0 s1 inf I1,I9 100 1 0 n n n n n y"
    = Throw (UnknownStimulusIdentifier unknown).
Proof.
  destruct (proj2 (choices_resolved_or_rejected
                     {["I1" := ImageStimulus "image" (Some "img/3.png") true]}
                     "0 s1 inf I1,I9 100 1 0 n n n n n y" "I1,I9"
                     eq_refl ltac:(discriminate)))
    as (unknown & _ & _ & Hthrow).
  - exists "I9". split; [| by vm_compute]. vm_compute. right. left.
  - by exists unknown.
Defined.

(** C4 on [LegacyParser]: an identifier the catalog lacks does not stop the
    decoding; the line decodes and its [choices] hold [undefined] in the
    place of the missing entry, where [Parser] throws. *)
Theorem legacy_unknown_choice_embedded :
  let image := ImageStimulus "image" (Some "img/3.png") true in
  let catalog : gmap string Stimulus := {["I1" := image]} in
  let line := "0 s1 inf I1,I9 100 1 0 n n n n n y" in
  catalog !! "I9" = None
  ∧ (∃ sequence,
       LegacyParser.parseSequenceInstruction catalog line = Ok sequence
       ∧ LegacyParser.choices sequence
         = LegacyParser.ChoiceList [Some image; None])
  ∧ parseSequenceInstruction catalog line
    = Throw (UnknownStimulusIdentifier "I9").
Proof.
  split; [by vm_compute |]. split; [| by vm_compute].
  eexists. split; [by vm_compute | by vm_compute].
Qed.

(** ** The whole run *)

(** C9. A run is a function of the text alone: two successful runs on the
    same text give the same document, and running again on the parser object
    a successful run has left gives that very object, so nothing a run leaves
    behind changes the result of the next one. *)
Theorem execute_deterministic (text : string) (first : Parser) :
  execute (new text) = Ok first →
  (∀ second, execute (new text) = Ok second → document second = document first)
  ∧ execute first = Ok first.
Proof.
  intros Hfirst. split.
  - intros second Hsecond. congruence.
  - by apply (execute_again (new text)).
Qed.

Lemma execute_deterministic_witness :
  ∃ first, execute (new exampleScript) = Ok first ∧ execute first = Ok first.
Proof.
  destruct (execute (new exampleScript)) as [first|e] eqn:Hrun;
    [| by vm_compute in Hrun].
  exists first. split; [done |].
  apply (execute_deterministic exampleScript first Hrun).
Defined.

(** * Further properties *)

(** ** Tokenizer: pair state, fields, lost and kept characters *)

Lemma countChar_append (c : ascii) (a b : string) :
  countChar c (a +:+ b) = countChar c a + countChar c b.
Proof. induction a as [|x a IH]; simpl; [done | rewrite IH; lia]. Qed.

Lemma countChar_absent (c : ascii) (s : string) :
  occurs c s = false → countChar c s = 0.
Proof.
  induction s as [|x s IH]; simpl; [done |].
  intros Hfree. apply orb_false_iff in Hfree as [Hx Hs].
  apply bool_decide_eq_false in Hx.
  rewrite decide_False by done. by rewrite IH.
Qed.

Lemma totalLength_snoc (words : list string) (w : string) :
  totalLength (words ++ [w]) = totalLength words + String.length w.
Proof.
  unfold totalLength. induction words as [|x words IH]; simpl; [lia |].
  rewrite IH. lia.
Qed.

Lemma join_split (separator : ascii) (s : string) :
  join separator (split separator s) = s.
Proof.
  induction s as [|c s IH]; [done |]. simpl.
  pose proof (split_nonempty separator s) as Hsome.
  destruct (decide (c = separator)) as [->|Hne].
  - destruct (split separator s) as [|w ws]; [done |]. simpl in *.
    by rewrite IH.
  - destruct (split separator s) as [|w ws]; [done |].
    destruct ws as [|w' ws]; simpl in *; by rewrite <- IH.
Qed.

Section TokenizerFields.

Variables splitChar pairChar : ascii.
Hypothesis distinct : splitChar ≠ pairChar.

Lemma splitLoop_parity (st : SplitState) (text : string) :
  isPairOpen (splitLoop splitChar pairChar st text)
  = xorb (isPairOpen st) (Nat.odd (countChar pairChar text)).
Proof.
  revert st. induction text as [|c text IH]; intros st; simpl.
  - by rewrite xorb_false_r.
  - rewrite IH. unfold splitStep.
    destruct (decide (c = pairChar)) as [->|Hne]; simpl.
    + rewrite Nat.odd_succ, <- Nat.negb_odd.
      by destruct (isPairOpen st), (Nat.odd (countChar pairChar text)).
    + by destruct (decide (c = splitChar)), (isPairOpen st).
Qed.

Lemma splitLoop_held (st : SplitState) (text : string) :
  held (splitLoop splitChar pairChar st text) + countChar pairChar text
  = held st + String.length text.
Proof.
  revert st. induction text as [|c text IH]; intros st; simpl; [lia |].
  specialize (IH (splitStep splitChar pairChar st c)).
  assert (held (splitStep splitChar pairChar st c)
          + (if decide (c = pairChar) then 1 else 0) = S (held st)) as Hstep.
  { unfold splitStep, held.
    destruct (decide (c = pairChar)); simpl; [lia |].
    destruct (decide (c = splitChar)); [destruct (isPairOpen st) |]; simpl;
      unfold push; rewrite ?length_append, ?totalLength_snoc, ?length_app;
      simpl; lia. }
  lia.
Qed.

Lemma segment_word (res : list string) (buffer word rest : string) :
  occurs splitChar word = false →
  occurs pairChar word = false →
  splitLoop splitChar pairChar (mkSplitState false res buffer)
    (word +:+ String splitChar rest)
  = splitLoop splitChar pairChar
      (mkSplitState false (res ++ [buffer +:+ word]) EmptyString) rest.
Proof.
  revert buffer. induction word as [|c word IH]; intros buffer Hsplit Hpair; simpl.
  - unfold splitStep. rewrite decide_False by done.
    rewrite decide_True by done. simpl. by rewrite append_empty_r.
  - simpl in Hsplit, Hpair.
    apply orb_false_iff in Hsplit as [Hc1 Hsplit].
    apply orb_false_iff in Hpair as [Hc2 Hpair].
    apply bool_decide_eq_false in Hc1. apply bool_decide_eq_false in Hc2.
    unfold splitStep at 1. rewrite !decide_False by done. simpl.
    rewrite IH by done. by rewrite push_append.
Qed.

Lemma segment_quoted (res : list string) (buffer content rest : string) :
  occurs pairChar content = false →
  splitLoop splitChar pairChar (mkSplitState false res buffer)
    (String pairChar (content +:+ String pairChar rest))
  = splitLoop splitChar pairChar
      (mkSplitState false res (buffer +:+ content)) rest.
Proof.
  intros Hfree. simpl. unfold splitStep at 1. rewrite decide_True by done. simpl.
  rewrite splitLoop_append, splitLoop_open by done. simpl.
  unfold splitStep at 1. by rewrite decide_True by done.
Qed.

Lemma segment_flush (res : list string) (buffer rest : string) :
  splitLoop splitChar pairChar (mkSplitState false res buffer)
    (String splitChar rest)
  = splitLoop splitChar pairChar
      (mkSplitState false (res ++ [buffer]) EmptyString) rest.
Proof.
  simpl. unfold splitStep. rewrite decide_False by done.
  by rewrite decide_True by done.
Qed.

Lemma render_quoted_append (content rest : string) :
  render pairChar (Quoted content) +:+ rest
  = String pairChar (content +:+ String pairChar rest).
Proof. simpl. by rewrite append_assoc. Qed.

Lemma splitLoop_fields (res : list string) (fields : list Field) :
  fields ≠ [] →
  Forall (wellFormed splitChar pairChar) fields →
  resultArray
    (splitLoop splitChar pairChar (mkSplitState false res EmptyString)
       (join splitChar (render pairChar <$> fields)
        +:+ String splitChar EmptyString))
  = res ++ (value <$> fields).
Proof.
  revert res. induction fields as [|f fields IH]; intros res Hsome Hall; [done |].
  apply Forall_cons in Hall as [Hf Hall].
  destruct fields as [|f' fields].
  - change (join splitChar (render pairChar <$> [f])) with (render pairChar f).
    destruct f as [word|content].
    + destruct Hf as [Hsplit Hpair].
      change (render pairChar (Bare word)) with word.
      by rewrite segment_word.
    + by rewrite render_quoted_append, segment_quoted, segment_flush.
  - specialize (IH (res ++ [value f]) ltac:(done) Hall).
    change (render pairChar <$> f :: f' :: fields)
      with (render pairChar f :: (render pairChar <$> f' :: fields)).
    change (join splitChar (render pairChar f :: (render pairChar <$> f' :: fields)))
      with (render pairChar f
            +:+ String splitChar (join splitChar (render pairChar <$> f' :: fields))).
    rewrite append_assoc.
    change (String splitChar (join splitChar (render pairChar <$> f' :: fields))
            +:+ String splitChar EmptyString)
      with (String splitChar
              (join splitChar (render pairChar <$> f' :: fields)
               +:+ String splitChar EmptyString)).
    destruct f as [word|content].
    + destruct Hf as [Hsplit Hpair].
      change (render pairChar (Bare word)) with word.
      rewrite segment_word by done.
      transitivity ((res ++ [value (Bare word)]) ++ (value <$> f' :: fields));
        [exact IH | by rewrite <- app_assoc].
    + rewrite render_quoted_append, segment_quoted by done.
      rewrite segment_flush.
      transitivity ((res ++ [value (Quoted content)]) ++ (value <$> f' :: fields));
        [exact IH | by rewrite <- app_assoc].
Qed.

End TokenizerFields.

(** X1. A line written as fields separated by the split character, where a
    field is a bare word without split or pair characters or a text without
    pair characters put between two pair characters, is tokenized into
    exactly the words and texts, in order. *)
Theorem tokenizer_reads_fields (splitChar pairChar : ascii) (fields : list Field) :
  splitChar ≠ pairChar →
  fields ≠ [] →
  Forall (wellFormed splitChar pairChar) fields →
  splitWithEscapedCharacter (join splitChar (render pairChar <$> fields))
    splitChar pairChar
  = value <$> fields.
Proof.
  intros Hne Hsome Hall. unfold splitWithEscapedCharacter, splitInit.
  by rewrite splitLoop_fields.
Qed.

Lemma tokenizer_reads_fields_witness :
  splitWithEscapedCharacter
    (join space (render doubleQuote <$> [Bare "text"; Bare "I2"; Quoted "hello  world"; Bare "n"]))
    space doubleQuote
  = ["text"; "I2"; "hello  world"; "n"].
Proof.
  apply (tokenizer_reads_fields space doubleQuote
           [Bare "text"; Bare "I2"; Quoted "hello  world"; Bare "n"]).
  - discriminate.
  - discriminate.
  - repeat constructor.
Defined.

(** X2. When the pair characters of a text are balanced and one more pair
    character follows, the tokens are those of the balanced text without the
    last one: what stands between the last split character outside a pair
    and the end of the input is lost, whatever follows the unclosed pair
    character. *)
Theorem unclosed_pair_drops_tail (splitChar pairChar : ascii)
    (balanced tail : string) :
  splitChar ≠ pairChar →
  Nat.even (countChar pairChar balanced) = true →
  occurs pairChar tail = false →
  splitWithEscapedCharacter (balanced +:+ String pairChar tail) splitChar pairChar
  = removelast (splitWithEscapedCharacter balanced splitChar pairChar).
Proof.
  intros Hne Heven Htail. unfold splitWithEscapedCharacter.
  rewrite append_assoc.
  change (String pairChar tail +:+ String splitChar EmptyString)
    with (String pairChar (tail +:+ String splitChar EmptyString)).
  rewrite !splitLoop_append.
  pose proof (splitLoop_parity splitChar pairChar splitInit balanced) as Hopen.
  rewrite <- Nat.negb_even, Heven in Hopen. simpl in Hopen.
  destruct (splitLoop splitChar pairChar splitInit balanced)
    as [open res buffer] eqn:Hstate.
  simpl in Hopen. subst open.
  rewrite (segment_flush splitChar pairChar Hne). simpl.
  unfold splitStep. rewrite (decide_True (P := pairChar = pairChar)) by done.
  simpl. rewrite splitLoop_open.
  2:{ rewrite occurs_append, Htail. simpl.
      by rewrite bool_decide_eq_false_2 by done. }
  simpl. by rewrite removelast_last.
Qed.

Lemma unclosed_pair_drops_tail_witness :
  splitWithEscapedCharacter
    ("text I2 " +:+ String doubleQuote "hello world n n") space doubleQuote
  = ["text"; "I2"].
Proof.
  rewrite (unclosed_pair_drops_tail space doubleQuote "text I2 " "hello world n n");
    [reflexivity | discriminate | reflexivity | reflexivity].
Defined.

(** X3. With balanced pair characters nothing is lost or invented: the
    characters of the tokens, one split character per token, and the pair
    characters add up to the length of the text plus the appended split
    character. *)
Theorem tokens_account_for_characters (splitChar pairChar : ascii) (text : string) :
  splitChar ≠ pairChar →
  Nat.even (countChar pairChar text) = true →
  totalLength (splitWithEscapedCharacter text splitChar pairChar)
  + length (splitWithEscapedCharacter text splitChar pairChar)
  + countChar pairChar text
  = String.length text + 1.
Proof.
  intros Hne Heven. unfold splitWithEscapedCharacter.
  rewrite splitLoop_append.
  pose proof (splitLoop_parity splitChar pairChar splitInit text) as Hopen.
  rewrite <- Nat.negb_even, Heven in Hopen. simpl in Hopen.
  pose proof (splitLoop_held splitChar pairChar splitInit text) as Hheld.
  destruct (splitLoop splitChar pairChar splitInit text) as [open res buffer].
  simpl in Hopen. subst open. simpl. unfold splitStep.
  rewrite decide_False by done. rewrite decide_True by done. simpl.
  unfold held in Hheld. simpl in Hheld.
  rewrite totalLength_snoc, length_app. simpl. lia.
Qed.

Lemma tokens_account_for_characters_witness :
  totalLength ["a"; "b c"; "d"] + 3 + 2 = 9 + 1.
Proof.
  apply (tokens_account_for_characters space doubleQuote
           ("a " +:+ String doubleQuote ("b c" +:+ String doubleQuote " d")));
    [discriminate | reflexivity].
Defined.

(** X4. On a text without pair characters, joining the tokens with the split
    character gives the text back. *)
Theorem join_tokens_restores_text (splitChar pairChar : ascii) (text : string) :
  splitChar ≠ pairChar →
  occurs pairChar text = false →
  join splitChar (splitWithEscapedCharacter text splitChar pairChar) = text.
Proof.
  intros Hne Hfree. unfold splitWithEscapedCharacter, splitInit.
  rewrite splitLoop_closed by done. simpl.
  pose proof (split_nonempty splitChar text) as Hsome.
  pose proof (join_split splitChar text) as Hjoin.
  by destruct (split splitChar text).
Qed.

Lemma join_tokens_restores_text_witness :
  join space (splitWithEscapedCharacter "0 s1  inf n " space doubleQuote)
  = "0 s1  inf n ".
Proof.
  apply (join_tokens_restores_text space doubleQuote "0 s1  inf n ");
    [discriminate | reflexivity].
Defined.

(** ** The constructor *)

Lemma reverse_append (a b : string) :
  reverse (a +:+ b) = reverse b +:+ reverse a.
Proof.
  induction a as [|c a IH]; simpl; [by rewrite append_empty_r |].
  by rewrite IH, append_assoc.
Qed.

Lemma reverse_involutive (s : string) : reverse (reverse s) = s.
Proof.
  induction s as [|c s IH]; simpl; [done |].
  rewrite reverse_append. simpl. by rewrite IH.
Qed.

Lemma length_reverse (s : string) : String.length (reverse s) = String.length s.
Proof.
  induction s as [|c s IH]; simpl; [done |].
  rewrite length_append, IH. simpl. lia.
Qed.

Lemma stripPrefix_Some (prefix s rest : string) :
  stripPrefix prefix s = Some rest ↔ s = prefix +:+ rest.
Proof.
  revert s. induction prefix as [|a prefix IH]; intros s; simpl.
  - split; [by intros [= ->] | by intros ->].
  - destruct s as [|b s]; [done |].
    destruct (decide (a = b)) as [->|Hne].
    + rewrite IH. split; [by intros -> | by intros [= ->]].
    + split; [done | by intros [= ? _]].
Qed.

Lemma stripOne_Some (characters : list string) (s rest : string) :
  stripOne characters s = Some rest →
  ∃ c, c ∈ characters ∧ s = c +:+ rest.
Proof.
  induction characters as [|c characters IH]; simpl; [done |].
  destruct (stripPrefix c s) as [rest'|] eqn:Hc.
  - intros [= <-]. apply stripPrefix_Some in Hc. exists c. split; [left | done].
  - intros Hrest. destruct (IH Hrest) as (c' & Hin & ->).
    exists c'. split; [by right | done].
Qed.

Lemma stripOne_None (characters : list string) (s : string) :
  stripOne characters s = None →
  ∀ c, c ∈ characters → ¬ startsWith c s.
Proof.
  induction characters as [|c characters IH]; simpl.
  - intros _ c Hin. by apply elem_of_nil in Hin.
  - destruct (stripPrefix c s) as [rest|] eqn:Hc; [done |].
    intros Hnone c' Hin. apply elem_of_cons in Hin as [-> | Hin]; [| by apply IH].
    intros [rest Hrest]. apply stripPrefix_Some in Hrest. congruence.
Qed.

(** The loop strips characters of the list, and stops at a text that starts
    with none of them. *)
Lemma stripLeading_cut (characters : list string) (fuel : nat) (s : string) :
  Forall (λ c, c ≠ EmptyString) characters →
  String.length s ≤ fuel →
  ∃ stripped,
    Forall (λ c, c ∈ characters) stripped
    ∧ s = foldr String.append EmptyString stripped
          +:+ stripLeading characters fuel s
    ∧ ∀ c, c ∈ characters → ¬ startsWith c (stripLeading characters fuel s).
Proof.
  intros Hsome. revert s. induction fuel as [|fuel IH]; intros s Hfuel; simpl.
  - exists []. split; [constructor |]. split; [done |].
    intros c Hin [rest Hrest]. destruct s; [| simpl in Hfuel; lia].
    destruct c; [| done].
    by apply (proj1 (Forall_forall _ _) Hsome EmptyString).
  - destruct (stripOne characters s) as [rest|] eqn:Hone.
    + apply stripOne_Some in Hone as (c & Hin & ->).
      assert (c ≠ EmptyString) as Hc
        by (by apply (proj1 (Forall_forall _ _) Hsome c)).
      destruct (IH rest) as (stripped & Hall & Hcut & Hstart).
      { rewrite length_append in Hfuel. destruct c; [done |]. simpl in Hfuel. lia. }
      exists (c :: stripped). split; [by constructor |]. split; [| done].
      simpl. rewrite append_assoc. by rewrite <- Hcut.
    + exists []. split; [constructor |]. split; [done |].
      by apply stripOne_None.
Qed.

Lemma reverse_concat (characters : list string) :
  reverse (foldr String.append EmptyString characters)
  = foldr String.append EmptyString (reverse <$> rev characters).
Proof.
  induction characters as [|c characters IH]; simpl; [done |].
  rewrite reverse_append, IH, fmap_app, foldr_app. simpl.
  rewrite append_empty_r.
  generalize (reverse <$> rev characters). intros l.
  induction l as [|x l IHl]; simpl; [done |].
  by rewrite append_assoc, IHl.
Qed.

Lemma whiteSpace_nonempty : Forall (λ c, c ≠ EmptyString) whiteSpace.
Proof. unfold whiteSpace. simpl. repeat (constructor; [done |]). constructor. Qed.

Lemma trimStart_cut (s : string) :
  ∃ before,
    whiteOnly before
    ∧ s = before +:+ trimStart s
    ∧ ∀ c, c ∈ whiteSpace → ¬ startsWith c (trimStart s).
Proof.
  destruct (stripLeading_cut whiteSpace (String.length s) s whiteSpace_nonempty)
    as (stripped & Hall & Hcut & Hstart); [done |].
  exists (foldr String.append EmptyString stripped).
  split; [by exists stripped | done].
Qed.

Lemma trimEnd_cut (s : string) :
  ∃ after,
    whiteOnly after
    ∧ s = trimEnd s +:+ after
    ∧ ∀ c, c ∈ whiteSpace → ¬ endsWith c (trimEnd s).
Proof.
  unfold trimEnd.
  destruct (stripLeading_cut (reverse <$> whiteSpace) (String.length s) (reverse s))
    as (stripped & Hall & Hcut & Hstart).
  { apply Forall_fmap. eapply Forall_impl; [apply whiteSpace_nonempty |].
    intros c Hc Hempty. apply Hc. simpl in Hempty.
    by rewrite <- (reverse_involutive c), Hempty. }
  { by rewrite length_reverse. }
  set (kept := stripLeading (reverse <$> whiteSpace) (String.length s) (reverse s)) in *.
  exists (reverse (foldr String.append EmptyString stripped)). split; [| split].
  - exists (reverse <$> rev stripped). split; [| apply reverse_concat].
    apply Forall_fmap, Forall_rev. eapply Forall_impl; [exact Hall |].
    intros c Hin. simpl. apply list_elem_of_fmap in Hin as (w & -> & Hw).
    by rewrite reverse_involutive.
  - rewrite <- reverse_append, <- Hcut. by rewrite reverse_involutive.
  - intros c Hin [rest Hrest]. apply (Hstart (reverse c)).
    + apply list_elem_of_fmap. by exists c.
    + exists (reverse rest).
      by rewrite <- reverse_append, <- Hrest, reverse_involutive.
Qed.

Lemma trim_cut (s : string) :
  ∃ before after,
    whiteOnly before ∧ whiteOnly after
    ∧ s = before +:+ trim s +:+ after
    ∧ trimmed (trim s).
Proof.
  unfold trim.
  destruct (trimStart_cut s) as (before & Hbefore & Hs & Hstart).
  destruct (trimEnd_cut (trimStart s)) as (after & Hafter & Hmiddle & Hend).
  exists before, after. split; [done |]. split; [done |]. split.
  - by rewrite <- Hmiddle.
  - intros c Hin. split; [| by apply Hend].
    intros [rest Hrest]. apply (Hstart c Hin).
    exists (rest +:+ after). rewrite Hmiddle, Hrest. apply append_assoc.
Qed.

Lemma length_split (separator : ascii) (s : string) :
  length (split separator s) = S (countChar separator s).
Proof.
  induction s as [|c s IH]; [done |]. simpl.
  destruct (decide (c = separator)); simpl; [by rewrite IH |].
  destruct (split separator s); simpl in *; lia.
Qed.

Lemma split_separator_free (separator : ascii) (s : string) :
  Forall (λ w, occurs separator w = false) (split separator s).
Proof.
  induction s as [|c s IH]; simpl; [by repeat constructor |].
  destruct (decide (c = separator)) as [->|Hne]; [by constructor |].
  destruct (split separator s) as [|w ws]; simpl.
  - repeat constructor. simpl. by rewrite bool_decide_eq_false_2.
  - apply Forall_cons in IH as [Hw Hws]. constructor; [| done].
    simpl. by rewrite bool_decide_eq_false_2, Hw.
Qed.

(** X5. The constructor yields one instruction per newline-separated line of
    the text (the number of newlines plus one).  Each instruction is its
    line without the white space at its two ends: the line is white-space
    characters, the instruction, white-space characters, and the instruction
    neither starts nor ends with a white-space character; it holds no
    newline.  The four section arrays, the catalog and the sequences start
    empty. *)
Theorem constructor_normalizes (rawInstructions : string) :
  let this := new rawInstructions in
  length (instructions this) = S (countChar "010" rawInstructions)
  ∧ Forall2 (λ line instruction,
               (∃ before after,
                  whiteOnly before ∧ whiteOnly after
                  ∧ line = before +:+ instruction +:+ after)
               ∧ trimmed instruction
               ∧ occurs "010" instruction = false)
      (split "010" rawInstructions) (instructions this)
  ∧ stimulusInstructions this = []
  ∧ preSequenceInstructions this = []
  ∧ mainSequenceInstructions this = []
  ∧ postSequenceInstructions this = []
  ∧ stimulus this = ∅
  ∧ sequences this = ∅.
Proof.
  simpl. split; [by rewrite length_fmap, length_split |].
  split; [| done].
  apply Forall2_fmap_r, Forall_Forall2_diag.
  eapply Forall_impl; [apply (split_separator_free "010") |].
  intros line Hline. simpl in Hline.
  destruct (trim_cut line) as (before & after & Hbefore & Hafter & Hcut & Htrimmed).
  split; [by exists before, after |]. split; [done |].
  rewrite Hcut, !occurs_append in Hline.
  apply orb_false_iff in Hline as [_ Hline].
  by apply orb_false_iff in Hline as [Hline _].
Qed.

(** ** Section extraction: what is returned, what is never read *)

Lemma extract_at_first_end (keyword : string) (before after : list string) :
  sectionEnd keyword ∉ before →
  extractInstructionsFromSection keyword (before ++ sectionEnd keyword :: after)
  = match lastStart keyword before 0 None with
    | Some s => Ok (drop (s + 1) before)
    | None => Throw (SectionNotFound keyword)
    end.
Proof.
  intros Hbefore. unfold extractInstructionsFromSection.
  rewrite scanSection_first_end by done.
  destruct (lastStart keyword before 0 None) as [s|]; [| done].
  simpl. unfold slice. by rewrite take_app_length.
Qed.

(** X6. Extraction returns a section exactly when the list is cut as
    [before], start marker, [section], end marker, [after], with no end
    marker in [before] and no marker of the keyword in [section]: a returned
    section never holds a line equal to its own start or end marker. *)
Theorem section_cut (keyword : string) (instructions section : list string) :
  extractInstructionsFromSection keyword instructions = Ok section
  ↔ ∃ before after,
      instructions
      = before ++ sectionStart keyword :: section ++ sectionEnd keyword :: after
      ∧ (sectionEnd keyword ∉ before)
      ∧ (sectionEnd keyword ∉ section)
      ∧ (sectionStart keyword ∉ section).
Proof.
  split.
  - intros Hok.
    destruct (extract_boundaries _ _ _ Hok)
      as (s & e & [He Hfirst] & (Hse & Hs & Hlast) & ->).
    exists (take s instructions), (drop (S e) instructions).
    split; [by apply boundaries_cut |]. split; [| split].
    + apply not_elem_of_take_below. intros i Hi. apply Hfirst. lia.
    + apply not_elem_of_slice_between. intros i Hi. apply Hfirst. lia.
    + by apply not_elem_of_slice_between.
  - intros (before & after & -> & Hbefore & Hend & Hstart).
    by apply extract_between.
Qed.

Lemma section_cut_witness :
  extractInstructionsFromSection "MainSeq"
    ["[PreSeq]"; "[EndPreSeq]"; "[MainSeq]"; "x"; "y"; "[EndMainSeq]"; "z"]
  = Ok ["x"; "y"].
Proof.
  apply (proj2 (section_cut "MainSeq" _ ["x"; "y"])).
  exists ["[PreSeq]"; "[EndPreSeq]"], ["z"].
  split; [reflexivity |]. repeat split; absent_from_literal.
Defined.

(** X7. The lines after the first end marker are never read: replacing them
    changes neither the section returned nor the error thrown. *)
Theorem lines_after_end_marker_ignored (keyword : string)
    (before after after' : list string) :
  extractInstructionsFromSection keyword (before ++ sectionEnd keyword :: after)
  = extractInstructionsFromSection keyword (before ++ sectionEnd keyword :: after').
Proof.
  destruct (decide (sectionEnd keyword ∈ before)) as [Hin|Hnot].
  - apply list_elem_of_split_l in Hin as (b1 & b2 & -> & Hb1).
    rewrite <- !app_assoc. simpl.
    by rewrite !extract_at_first_end by done.
  - by rewrite !extract_at_first_end by done.
Qed.

(** X8. The older extraction returns what [Parser]'s returns whenever that
    one returns, and it throws exactly when the list has no end marker.  When
    no start marker stands before the first end marker it returns every line
    before that end marker. *)
Theorem legacy_extraction (keyword : string) (instructions : list string) :
  (∀ section,
     extractInstructionsFromSection keyword instructions = Ok section →
     LegacyParser.extractInstructionsFromSection keyword instructions = Ok section)
  ∧ (sectionEnd keyword ∉ instructions
     ↔ LegacyParser.extractInstructionsFromSection keyword instructions
       = Throw (SectionNotFound keyword))
  ∧ (∀ before after,
       instructions = before ++ sectionEnd keyword :: after →
       sectionEnd keyword ∉ before →
       sectionStart keyword ∉ before →
       LegacyParser.extractInstructionsFromSection keyword instructions
       = Ok before).
Proof.
  split; [| split].
  - unfold extractInstructionsFromSection,
      LegacyParser.extractInstructionsFromSection.
    intros section.
    by destruct (scanSection keyword instructions 0 None) as [[s|] [e|]].
  - unfold LegacyParser.extractInstructionsFromSection. split.
    + intros Hnot. rewrite scanSection_no_end by done.
      by destruct (lastStart keyword instructions 0 None).
    + intros Hthrow Hin.
      apply list_elem_of_split_l in Hin as (before & after & -> & Hbefore).
      rewrite scanSection_first_end in Hthrow by done.
      by destruct (lastStart keyword before 0 None).
  - intros before after -> Hend Hstart.
    unfold LegacyParser.extractInstructionsFromSection.
    rewrite scanSection_first_end, lastStart_no_start by done.
    simpl. unfold slice. by rewrite take_app_length.
Qed.

Lemma legacy_extraction_witness :
  LegacyParser.extractInstructionsFromSection "PreSeq"
    ["Task"; "x"; "[EndPreSeq]"; "[PreSeq]"]
  = Ok ["Task"; "x"].
Proof.
  apply (proj2 (proj2 (legacy_extraction "PreSeq"
                         ["Task"; "x"; "[EndPreSeq]"; "[PreSeq]"]))
           ["Task"; "x"] ["[PreSeq]"]);
    [reflexivity | absent_from_literal | absent_from_literal].
Defined.

(** ** Stimulus decoding: which lines decode, what the catalog holds *)

Lemma buildStimulus_supported (tokens : list string) :
  tokens !! 0 ∈ supportedStimulusTypes → ∃ s, buildStimulus tokens = Ok s.
Proof.
  unfold supportedStimulusTypes, buildStimulus. intros Hin.
  repeat (apply elem_of_cons in Hin as [-> | Hin];
          [repeat (case_decide; [by eauto |]); done |]).
  by apply elem_of_nil in Hin.
Qed.

Lemma parseStimulusInstruction_supported (line : string) :
  (∃ entry, parseStimulusInstruction line = Ok entry)
  ↔ splitWithEscapedCharacter line space doubleQuote !! 0 ∈ supportedStimulusTypes.
Proof.
  unfold parseStimulusInstruction. split.
  - intros [entry Hentry].
    destruct (decide (splitWithEscapedCharacter line space doubleQuote !! 0
                      ∈ supportedStimulusTypes)) as [|Hnot]; [done |].
    by rewrite (buildStimulus_unsupported _ Hnot) in Hentry.
  - intros Hin. destruct (buildStimulus_supported _ Hin) as [s ->].
    simpl. eauto.
Qed.

(** X9. A stimulus section decodes exactly when the first token of each of
    its lines is [image], [text], [text_file], [audio] or [video]: the number
    of tokens of a line is never checked, and a blank line makes the section
    fail. *)
Theorem stimulus_section_decodes_iff (lines : list string)
    (catalog : gmap string Stimulus) :
  (∃ final, parseStimulusLoop lines catalog = Ok final)
  ↔ Forall (λ line, splitWithEscapedCharacter line space doubleQuote !! 0
                    ∈ supportedStimulusTypes) lines.
Proof.
  revert catalog. induction lines as [|line rest IH]; intros catalog; simpl.
  - split; [constructor | eauto].
  - rewrite Forall_cons, <- parseStimulusInstruction_supported. split.
    + intros [final Hfinal].
      destruct (parseStimulusInstruction line) as [entry|e]; simpl in Hfinal; [| done].
      split; [eauto |]. apply (IH (<[entry.1:=entry.2]> catalog)). eauto.
    + intros [[entry ->] Hrest]. simpl. by apply IH.
Qed.

Lemma stimulus_section_decodes_iff_witness :
  ∃ final, parseStimulusLoop ["image"; "audio A1"] ∅ = Ok final.
Proof.
  apply (proj2 (stimulus_section_decodes_iff ["image"; "audio A1"] ∅)).
  constructor; [vm_compute; left |].
  constructor; [vm_compute; do 3 right; left | constructor].
Defined.

(** X10. When a stimulus section decodes, the keys of the catalog are the
    keys it had before and the identifiers of the lines other than
    [__proto__], and nothing else.  A line with the identifier [__proto__]
    adds no key to a catalog that has no such key: the prototype of the
    catalog is then the object of the last such line, and the prototype it
    had before when there is no such line. *)
Theorem catalog_keys (lines : list string) (d final : ObjectParser.Dictionary) :
  ObjectParser.parseStimulusLoop lines d = Ok final →
  (∀ key,
     is_Some (PlainObject.own final !! key)
     ↔ is_Some (PlainObject.own d !! key)
       ∨ (key ≠ "__proto__"
          ∧ ∃ line s, line ∈ lines ∧ parseStimulusInstruction line = Ok (key, s)))
  ∧ (PlainObject.own d !! "__proto__" = None →
     PlainObject.own final !! "__proto__" = None
     ∧ ((∀ line s, line ∈ lines →
           parseStimulusInstruction line ≠ Ok ("__proto__", s)) →
        PlainObject.prototype final = PlainObject.prototype d)
     ∧ (∀ i line s,
          lines !! i = Some line →
          parseStimulusInstruction line = Ok ("__proto__", s) →
          (∀ j later s', i < j → lines !! j = Some later →
             parseStimulusInstruction later ≠ Ok ("__proto__", s')) →
          PlainObject.prototype final = Some s)).
Proof.
  intros Hloop. split.
  - intros key. by apply objectLoop_keys.
  - intros Hnone. split; [by apply (objectLoop_own_proto lines d) |]. split.
    + by apply objectLoop_prototype_untouched.
    + intros i line s. by apply (objectLoop_prototype_last lines d).
Qed.

Lemma catalog_keys_witness :
  ∃ final,
    ObjectParser.parseStimulusLoop
      ["image __proto__ a.png"; "audio A1 b.wav"] PlainObject.empty = Ok final
    ∧ PlainObject.own final !! "__proto__" = None
    ∧ PlainObject.prototype final = Some (ImageStimulus "image" (Some "a.png") false).
Proof.
  destruct (ObjectParser.parseStimulusLoop
              ["image __proto__ a.png"; "audio A1 b.wav"] PlainObject.empty)
    as [final|e] eqn:Hloop; [| by vm_compute in Hloop].
  exists final. split; [done |].
  destruct (proj2 (catalog_keys _ _ _ Hloop) eq_refl) as (Hown & _ & Hlast).
  split; [done |].
  apply (Hlast 0 "image __proto__ a.png"); [reflexivity | by vm_compute |].
  intros j later s' Hj Hlater. destruct j as [|[|j]]; [lia | | discriminate].
  injection Hlater as <-. by vm_compute.
Defined.

Lemma stimulus_line_tokens (fields : list Field) :
  fields ≠ [] →
  Forall (wellFormed space doubleQuote) fields →
  splitWithEscapedCharacter (writeLine fields) space doubleQuote
  = value <$> fields.
Proof.
  intros Hsome Hall. unfold splitWithEscapedCharacter, splitInit, writeLine.
  by rewrite splitLoop_fields.
Qed.

(** Closes [Forall (wellFormed _ _) fields] for a literal list of fields whose
    words are literals or covered by hypotheses. *)
Ltac well_formed_fields :=
  repeat (apply Forall_cons_2; [first [assumption | by split | reflexivity] |]);
  apply Forall_nil_2.

(** X11. A [text] line written as [text], identifier, the content between
    double quotes, font size, font color decodes to an object stored under
    the identifier whose content is the quoted text as it stands, spaces
    included, and whose font size and font color are [null] exactly when
    their token is [n]. *)
Theorem text_line_decodes (identifier content fontSize fontColor : string) :
  Forall (wellFormed space doubleQuote)
    [Bare identifier; Quoted content; Bare fontSize; Bare fontColor] →
  parseStimulusInstruction
    (writeLine [Bare "text"; Bare identifier; Quoted content;
                Bare fontSize; Bare fontColor])
  = Ok (identifier,
        TextStimulus "text" (Some content)
          (if decide (fontSize = "n") then None
           else Some (ParseInt (Some fontSize)))
          (if decide (fontColor = "n") then None else Some (Some fontColor))).
Proof.
  intros Hall. unfold parseStimulusInstruction.
  rewrite stimulus_line_tokens; [| done | by constructor].
  unfold buildStimulus. simpl. unfold fontSizeOf, fontColorOf, mret, result_ret.
  do 3 f_equal; repeat case_decide; done || congruence.
Qed.

Lemma text_line_decodes_witness :
  parseStimulusInstruction
    (writeLine [Bare "text"; Bare "I2"; Quoted "hello world"; Bare "n"; Bare "red"])
  = Ok ("I2", TextStimulus "text" (Some "hello world") None (Some (Some "red"))).
Proof.
  apply (text_line_decodes "I2" "hello world" "n" "red").
  well_formed_fields.
Defined.

(** X12. An [image] line gets [button] true from any non-empty fourth token,
    whatever the token says, and [button] false when the line stops after the
    file path. *)
Theorem image_button_any_token (identifier filePath : string) :
  Forall (wellFormed space doubleQuote) [Bare identifier; Bare filePath] →
  (∀ button,
     wellFormed space doubleQuote (Bare button) →
     button ≠ EmptyString →
     parseStimulusInstruction
       (writeLine [Bare "image"; Bare identifier; Bare filePath; Bare button])
     = Ok (identifier, ImageStimulus "image" (Some filePath) true))
  ∧ parseStimulusInstruction
      (writeLine [Bare "image"; Bare identifier; Bare filePath])
    = Ok (identifier, ImageStimulus "image" (Some filePath) false).
Proof.
  intros Hall. apply Forall_cons in Hall as [Hid Hall].
  apply Forall_cons in Hall as [Hpath _]. split.
  - intros button Hbutton Hsome. unfold parseStimulusInstruction.
    rewrite stimulus_line_tokens; [| done | well_formed_fields].
    unfold buildStimulus. simpl. by destruct button.
  - unfold parseStimulusInstruction.
    rewrite stimulus_line_tokens; [| done | well_formed_fields].
    unfold buildStimulus. by simpl.
Qed.

Lemma image_button_any_token_witness :
  parseStimulusInstruction
    (writeLine [Bare "image"; Bare "I1"; Bare "img/3.png"; Bare "false"])
  = Ok ("I1", ImageStimulus "image" (Some "img/3.png") true).
Proof.
  apply (proj1 (image_button_any_token "I1" "img/3.png" ltac:(well_formed_fields))
           "false"); [by split | discriminate].
Defined.

(** X13. For every [audio] or [video] line that decodes, the [filePath] of
    the object is the type tag, whatever tokens follow. *)
Theorem media_filePath_is_tag (line tag identifier : string) (s : Stimulus) :
  tag = "audio" ∨ tag = "video" →
  splitWithEscapedCharacter line space doubleQuote !! 0 = Some tag →
  parseStimulusInstruction line = Ok (identifier, s) →
  s = MediaStimulus tag (Some tag).
Proof.
  intros Htag Hfirst. unfold parseStimulusInstruction.
  rewrite (buildStimulus_media _ tag Htag Hfirst). simpl.
  by intros [= _ <-].
Qed.

Lemma media_filePath_is_tag_witness :
  MediaStimulus "video" (Some "video") = MediaStimulus "video" (Some "video").
Proof.
  symmetry.
  apply (media_filePath_is_tag "video V1 mov/a.mp4" "video" "V1");
    [by right | reflexivity | reflexivity].
Defined.

(** ** Sequence decoding: which lines decode, with what error, in what order *)

Lemma resolveChoices_known (catalog : gmap string Stimulus)
    (identifiers : list string) :
  (∃ stimuli, resolveChoices catalog identifiers = Ok stimuli)
  ↔ ∀ identifier, identifier ∈ identifiers → is_Some (catalog !! identifier).
Proof.
  split.
  - intros [stimuli Hok] identifier Hin.
    apply resolveChoices_found in Hok.
    apply list_elem_of_lookup in Hin as [i Hi].
    destruct (Forall2_lookup_l _ _ _ _ _ Hok Hi) as (s & _ & Hs). by exists s.
  - induction identifiers as [|identifier rest IH]; intros Hall; simpl; [eauto |].
    destruct (Hall identifier) as [found Hfound]; [left |].
    unfold getStimulusByIdentifier. rewrite Hfound. simpl.
    destruct IH as [others ->]; [| simpl; eauto].
    intros other Hin. apply Hall. by right.
Qed.

Lemma choicesOf_known (catalog : gmap string Stimulus) (choices : token) :
  (∃ resolved, choicesOf catalog choices = Ok resolved)
  ↔ ∃ c, choices = Some c
         ∧ (c = "n"
            ∨ ∀ identifier, identifier ∈ split "," c →
                            is_Some (catalog !! identifier)).
Proof.
  unfold choicesOf. destruct choices as [c|].
  - destruct (decide (c = "n")) as [->|Hne].
    + split; [intros _; exists "n"; eauto | simpl; eauto].
    + split.
      * intros [resolved Hok]. exists c. split; [done |]. right.
        apply resolveChoices_known.
        destruct (resolveChoices catalog (split "," c)); [eauto | done].
      * intros (c' & [= <-] & [-> | Hknown]); [done |].
        apply resolveChoices_known in Hknown as [stimuli ->]. simpl. eauto.
  - split; [by intros [? ?] | by intros (c & ? & _)].
Qed.

Lemma attachFeedback_illegal (feedbackType feedback1 feedback2 : token)
    (sequence : Sequence) :
  feedbackType ∉ feedbackTypes →
  attachFeedback feedbackType feedback1 feedback2 sequence
  = Throw (InvalidFeedbackType feedbackType).
Proof.
  unfold attachFeedback, feedbackTypes. intros Hnot.
  repeat (case_decide; [subst; exfalso; apply Hnot; listed |]). done.
Qed.

Lemma attachFeedback_legal (feedbackType feedback1 feedback2 : token)
    (sequence : Sequence) :
  (∃ attached,
     attachFeedback feedbackType feedback1 feedback2 sequence = Ok attached)
  ↔ feedbackType ∈ feedbackTypes.
Proof.
  split.
  - intros [attached Hok].
    destruct (decide (feedbackType ∈ feedbackTypes)) as [|Hnot]; [done |].
    by rewrite attachFeedback_illegal in Hok.
  - unfold attachFeedback, feedbackTypes. intros Hin.
    repeat (apply elem_of_cons in Hin as [-> | Hin];
            [repeat (case_decide; [by eauto |]); done |]).
    by apply elem_of_nil in Hin.
Qed.

Lemma parseSequenceInstruction_decodes (catalog : gmap string Stimulus)
    (line : string) :
  (∃ sequence, parseSequenceInstruction catalog line = Ok sequence)
  ↔ (∃ c, split " " line !! 3 = Some c
          ∧ (c = "n"
             ∨ ∀ identifier, identifier ∈ split "," c →
                             is_Some (catalog !! identifier)))
    ∧ split " " line !! 8 ∈ feedbackTypes.
Proof.
  unfold parseSequenceInstruction.
  rewrite <- choicesOf_known. split.
  - intros [sequence Hok].
    destruct (choicesOf catalog (split " " line !! 3)) as [resolved|e];
      simpl in Hok; [| done].
    split; [eauto |]. eapply attachFeedback_legal. eauto.
  - intros [[resolved ->] Hlegal]. simpl. by apply attachFeedback_legal.
Qed.

Lemma resolveChoices_weaken (catalog larger : gmap string Stimulus)
    (identifiers : list string) (stimuli : list Stimulus) :
  catalog ⊆ larger →
  resolveChoices catalog identifiers = Ok stimuli →
  resolveChoices larger identifiers = Ok stimuli.
Proof.
  intros Hsub. revert stimuli.
  induction identifiers as [|identifier rest IH]; intros stimuli; simpl; [done |].
  unfold getStimulusByIdentifier.
  destruct (catalog !! identifier) as [found|] eqn:Hfound; simpl; [| done].
  rewrite (lookup_weaken _ _ _ _ Hfound Hsub). simpl.
  destruct (resolveChoices catalog rest) as [others|e]; simpl; [| done].
  by rewrite (IH others eq_refl).
Qed.

Lemma split_append (separator : ascii) (a b : string) :
  split separator (a +:+ String separator b)
  = split separator a ++ split separator b.
Proof.
  induction a as [|c a IH]; simpl.
  - by rewrite decide_True.
  - rewrite IH. destruct (decide (c = separator)); [done |].
    pose proof (split_nonempty separator a) as Hsome.
    by destruct (split separator a).
Qed.



(** X15. A sequence line whose choice identifiers are ordinary (none is
    [__proto__], a member of [Object.prototype] or a property name of a
    stimulus object) decodes exactly when it has a fourth token that is [n]
    or a comma-separated list of keys of the catalog, and its ninth token is
    one of the four feedback types.  Nothing else is checked: neither the
    number of tokens nor the numeric fields. *)
Theorem sequence_line_decodes_iff (zeroOrNaN : number → bool)
    (d : ObjectParser.Dictionary) (line : string) :
  (∀ c, split " " line !! 3 = Some c → Forall ordinary (split "," c)) →
  (∃ sequence, ObjectParser.parseSequenceInstruction zeroOrNaN d line = Ok sequence)
  ↔ (∃ c, split " " line !! 3 = Some c
          ∧ (c = "n"
             ∨ ∀ identifier, identifier ∈ split "," c →
                             is_Some (PlainObject.own d !! identifier)))
    ∧ split " " line !! 8 ∈ feedbackTypes.
Proof.
  intros Hordinary. unfold ObjectParser.parseSequenceInstruction.
  rewrite (choicesOf_ordinary _ _ _ Hordinary), <- choicesOf_known.
  destruct (choicesOf (PlainObject.own d) (split " " line !! 3)) as [resolved|e];
    simpl.
  - split.
    + intros [sequence Hok]. split; [eauto |].
      destruct (decide (split " " line !! 8 ∈ feedbackTypes)) as [|Hnot]; [done |].
      by rewrite object_attachFeedback_illegal in Hok.
    + intros [_ Hlegal].
      edestruct object_attachFeedback_legal as (attached & -> & _);
        [exact Hlegal | eauto].
  - split; [by intros [? ?] | by intros [[? ?] _]].
Qed.

Lemma sequence_line_decodes_iff_witness :
  ∃ sequence,
    ObjectParser.parseSequenceInstruction (λ _, false)
      (PlainObject.mkDictionary
         {["I1" := ImageStimulus "image" (Some "a.png") false]} None)
      "x y z I1 4 5 6 7 tf"
    = Ok sequence.
Proof.
  apply (proj2 (sequence_line_decodes_iff (λ _, false)
                  (PlainObject.mkDictionary
                     {["I1" := ImageStimulus "image" (Some "a.png") false]} None)
                  "x y z I1 4 5 6 7 tf"
                  ltac:(intros c [= <-]; vm_compute;
                        constructor; [ordinary_literal | constructor]))).
  split; [| vm_compute; listed].
  exists "I1". split; [reflexivity |]. right.
  intros identifier Hin. vm_compute in Hin.
  apply elem_of_cons in Hin as [-> | Hin]; [by eexists | by apply elem_of_nil in Hin].
Defined.

(** X16. A sequence line with fewer than four tokens (a blank line among
    them) throws a [TypeError]; a line whose choices resolve and whose ninth
    token is not a feedback type throws the feedback-type error with that
    token. *)
Theorem sequence_line_errors (catalog : gmap string Stimulus) (line : string) :
  (length (split " " line) ≤ 3 →
   parseSequenceInstruction catalog line = Throw TypeError)
  ∧ (∀ c,
       split " " line !! 3 = Some c →
       (c = "n"
        ∨ ∀ identifier, identifier ∈ split "," c →
                        is_Some (catalog !! identifier)) →
       split " " line !! 8 ∉ feedbackTypes →
       parseSequenceInstruction catalog line
       = Throw (InvalidFeedbackType (split " " line !! 8))).
Proof.
  unfold parseSequenceInstruction. split.
  - intros Hshort. by rewrite (lookup_ge_None_2 _ 3) by lia.
  - intros c Htoken Hknown Hnot.
    destruct (proj2 (choicesOf_known catalog (split " " line !! 3)))
      as [resolved ->]; [by exists c |].
    simpl. by apply attachFeedback_illegal.
Qed.

Lemma sequence_line_errors_witness :
  parseSequenceInstruction ∅ EmptyString = Throw TypeError
  ∧ parseSequenceInstruction ∅ "0 s1 inf n 100 1 0 n always n n n y"
    = Throw (InvalidFeedbackType (Some "always")).
Proof.
  split.
  - apply (proj1 (sequence_line_errors ∅ EmptyString)). simpl. lia.
  - apply (proj2 (sequence_line_errors ∅ "0 s1 inf n 100 1 0 n always n n n y") "n");
      [reflexivity | by left | vm_compute; absent_from_literal].
Defined.

(** X17. Tokens after the thirteenth are never read: a line with at least
    thirteen tokens decodes to the same step, or throws the same error, when
    anything is written after it behind a space. *)
Theorem extra_tokens_ignored (catalog : gmap string Stimulus)
    (line extra : string) :
  13 ≤ length (split " " line) →
  parseSequenceInstruction catalog (line +:+ String " " extra)
  = parseSequenceInstruction catalog line.
Proof.
  intros Hlong. unfold parseSequenceInstruction.
  rewrite split_append. by rewrite !lookup_app_l by lia.
Qed.

Lemma extra_tokens_ignored_witness :
  parseSequenceInstruction ∅ "0 s1 inf n 100 1 0 n n n n n y extra tokens"
  = parseSequenceInstruction ∅ "0 s1 inf n 100 1 0 n n n n n y".
Proof.
  apply (extra_tokens_ignored ∅ "0 s1 inf n 100 1 0 n n n n n y" "extra tokens").
  vm_compute. lia.
Defined.

(** X18. Adding keys to the catalog, or changing its prototype, does not
    change what a line with ordinary choice identifiers decodes to: a step
    decoded against a catalog is decoded, the same, against every catalog
    whose keys extend it. *)
Theorem catalog_extension_preserves_step (zeroOrNaN : number → bool)
    (d larger : ObjectParser.Dictionary) (line : string)
    (sequence : ObjectParser.Sequence) :
  PlainObject.own d ⊆ PlainObject.own larger →
  (∀ c, split " " line !! 3 = Some c → Forall ordinary (split "," c)) →
  ObjectParser.parseSequenceInstruction zeroOrNaN d line = Ok sequence →
  ObjectParser.parseSequenceInstruction zeroOrNaN larger line = Ok sequence.
Proof.
  intros Hsub Hordinary. unfold ObjectParser.parseSequenceInstruction.
  rewrite !(choicesOf_ordinary _ _ _ Hordinary). unfold choicesOf.
  destruct (split " " line !! 3) as [c|]; [| done].
  destruct (decide (c = "n")); [done |].
  destruct (resolveChoices (PlainObject.own d) (split "," c))
    as [stimuli|e] eqn:Hresolve; simpl; [| done].
  by rewrite (resolveChoices_weaken _ _ _ _ Hsub Hresolve).
Qed.

Lemma catalog_extension_preserves_step_witness :
  let image := ImageStimulus "image" (Some "a.png") false in
  ∃ sequence,
    ObjectParser.parseSequenceInstruction (λ _, false)
      (PlainObject.mkDictionary
         (<["I2" := MediaStimulus "audio" (Some "audio")]> {["I1" := image]})
         (Some image))
      "0 s1 inf I1 100 1 0 n n n n n y"
    = Ok sequence.
Proof.
  intros image.
  destruct (ObjectParser.parseSequenceInstruction (λ _, false)
              (PlainObject.mkDictionary {["I1" := image]} None)
              "0 s1 inf I1 100 1 0 n n n n n y") as [sequence|e] eqn:Hline;
    [| by vm_compute in Hline].
  exists sequence.
  apply (catalog_extension_preserves_step (λ _, false)
           (PlainObject.mkDictionary {["I1" := image]} None));
    [| | exact Hline].
  - simpl. apply insert_subseteq. by vm_compute.
  - intros c [= <-]. vm_compute. constructor; [ordinary_literal | constructor].
Defined.

(** X19. Declared stimuli resolve: against the catalog built from a stimulus
    section, a sequence line with a legal feedback type whose choices are
    identifiers of lines of that section decodes. *)
Theorem declared_choices_resolve (lines : list string)
    (catalog final : gmap string Stimulus) (line c : string) :
  parseStimulusLoop lines catalog = Ok final →
  split " " line !! 3 = Some c →
  (∀ identifier, identifier ∈ split "," c →
     ∃ declaration s,
       declaration ∈ lines
       ∧ parseStimulusInstruction declaration = Ok (identifier, s)) →
  split " " line !! 8 ∈ feedbackTypes →
  ∃ sequence, parseSequenceInstruction final line = Ok sequence.
Proof.
  intros Hloop Htoken Hdeclared Hlegal.
  apply parseSequenceInstruction_decodes. split; [| done].
  exists c. split; [done |]. right. intros identifier Hin.
  destruct (Hdeclared identifier Hin) as (declaration & s & Hdecl & Hline).
  by apply (parseStimulusLoop_present _ _ _ _ _ _ Hloop Hdecl Hline).
Qed.

Lemma declared_choices_resolve_witness :
  ∃ final sequence,
    parseStimulusLoop ["image I1 a.png"; "audio A1 b.wav"] ∅ = Ok final
    ∧ parseSequenceInstruction final "0 s1 inf A1,I1 100 1 0 n n n n n y"
      = Ok sequence.
Proof.
  destruct (parseStimulusLoop ["image I1 a.png"; "audio A1 b.wav"] ∅)
    as [final|e] eqn:Hloop; [| by vm_compute in Hloop].
  destruct (declared_choices_resolve _ _ _
              "0 s1 inf A1,I1 100 1 0 n n n n n y" "A1,I1" Hloop eq_refl)
    as [sequence Hline].
  - intros identifier Hin. vm_compute in Hin.
    apply elem_of_cons in Hin as [-> | Hin].
    + exists "audio A1 b.wav". eexists. split; [listed | by vm_compute].
    + apply elem_of_cons in Hin as [-> | Hin]; [| by apply elem_of_nil in Hin].
      exists "image I1 a.png". eexists. split; [listed | by vm_compute].
  - vm_compute. listed.
  - by exists final, sequence.
Defined.

(** ** The catalog as an object: inherited names, own keys *)

(** X26. A name under which [Object.prototype] holds a function resolves as
    a stimulus identifier although no stimulus line declares it, whatever
    the prototype of the catalog: the lookup returns that function.  So a
    sequence line with a legal feedback type whose choices are such names
    decodes, with those functions as its choices. *)
Theorem inherited_names_resolve (zeroOrNaN : number → bool)
    (d : ObjectParser.Dictionary) :
  (∀ name,
     name ∈ PlainObject.objectPrototypeMembers →
     PlainObject.own d !! name = None →
     ObjectParser.getStimulusByIdentifier zeroOrNaN d name
     = Ok (PlainObject.VFunction name))
  ∧ (∀ line c,
       split " " line !! 3 = Some c →
       c ≠ "n" →
       (∀ name, name ∈ split "," c →
          name ∈ PlainObject.objectPrototypeMembers
          ∧ PlainObject.own d !! name = None) →
       split " " line !! 8 ∈ feedbackTypes →
       ∃ sequence,
         ObjectParser.parseSequenceInstruction zeroOrNaN d line = Ok sequence
         ∧ ObjectParser.choices sequence
           = ObjectParser.ChoiceList (PlainObject.VFunction <$> split "," c)).
Proof.
  split; [intros name; apply getStimulusByIdentifier_member |].
  intros line c Htoken Hne Hmembers Hlegal.
  unfold ObjectParser.parseSequenceInstruction, ObjectParser.choicesOf.
  rewrite Htoken, decide_False by done.
  rewrite (resolveChoices_members _ _ _ Hmembers). simpl.
  edestruct object_attachFeedback_legal as (attached & -> & Hchoices);
    [exact Hlegal |].
  exists attached. split; [done |]. by rewrite Hchoices.
Qed.

Lemma inherited_names_resolve_witness :
  ∃ sequence,
    ObjectParser.parseSequenceInstruction (λ _, false) PlainObject.empty
      "0 s1 inf constructor,toString 100 1 0 n n n n n y"
    = Ok sequence
    ∧ ObjectParser.choices sequence
      = ObjectParser.ChoiceList
          [PlainObject.VFunction "constructor"; PlainObject.VFunction "toString"].
Proof.
  apply (proj2 (inherited_names_resolve (λ _, false) PlainObject.empty)
           "0 s1 inf constructor,toString 100 1 0 n n n n n y"
           "constructor,toString").
  - reflexivity.
  - discriminate.
  - intros name Hin. vm_compute in Hin. split; [| done].
    apply elem_of_cons in Hin as [-> | Hin]; [listed |].
    apply elem_of_cons in Hin as [-> | Hin]; [listed |].
    by apply elem_of_nil in Hin.
  - vm_compute. listed.
Defined.

(** X27. For a sequence line whose choice identifiers are ordinary, decoding
    on the object is decoding on its own keys: the same error, or the same
    step with the catalog entries as choices, whatever the prototype. *)
Theorem ordinary_choices_decode_on_own_keys (zeroOrNaN : number → bool)
    (d : ObjectParser.Dictionary) (line : string) :
  (∀ c, split " " line !! 3 = Some c → Forall ordinary (split "," c)) →
  ObjectParser.parseSequenceInstruction zeroOrNaN d line
  = onReturn ofSequence (parseSequenceInstruction (PlainObject.own d) line).
Proof.
  intros Hordinary.
  unfold ObjectParser.parseSequenceInstruction, parseSequenceInstruction.
  rewrite (choicesOf_ordinary _ _ _ Hordinary).
  destruct (choicesOf (PlainObject.own d) (split " " line !! 3)) as [resolved|e];
    simpl; [| done].
  apply (attachFeedback_ofSequence _ _ _
           (mkSequence _ _ _ resolved _ _ _ _ _ _ _ None None)).
Qed.

Lemma ordinary_choices_decode_on_own_keys_witness :
  let image := ImageStimulus "image" (Some "a.png") false in
  ObjectParser.parseSequenceInstruction (λ _, false)
    (PlainObject.mkDictionary {["I1" := image]} (Some image))
    "0 s1 inf I1,I9 100 1 0 n n n n n y"
  = Throw (UnknownStimulusIdentifier "I9").
Proof.
  intros image.
  rewrite (ordinary_choices_decode_on_own_keys (λ _, false)
             (PlainObject.mkDictionary {["I1" := image]} (Some image))
             "0 s1 inf I1,I9 100 1 0 n n n n n y").
  - by vm_compute.
  - intros c [= <-]. vm_compute.
    constructor; [ordinary_literal |]. constructor; [ordinary_literal | constructor].
Defined.

(** X28. For a stimulus section in which no line has the identifier
    [__proto__], the loop on the object is the loop on its own keys: the
    same error, or the same keys and entries, with the prototype left as it
    was. *)
Theorem no_proto_line_catalog_on_own_keys (lines : list string)
    (d : ObjectParser.Dictionary) :
  (∀ line s, line ∈ lines → parseStimulusInstruction line ≠ Ok ("__proto__", s)) →
  ObjectParser.parseStimulusLoop lines d
  = onReturn (λ catalog, PlainObject.mkDictionary catalog (PlainObject.prototype d))
      (parseStimulusLoop lines (PlainObject.own d)).
Proof.
  revert d. induction lines as [|line rest IH]; intros d Hother; simpl.
  - by destruct d.
  - destruct (parseStimulusInstruction line) as [[key s]|e] eqn:Hline; simpl; [| done].
    assert (key ≠ "__proto__") as Hne.
    { intros ->. apply (Hother line s); [left | done]. }
    rewrite (set_other _ _ _ Hne). rewrite IH; [done |].
    intros line' s' Hin. apply Hother. by right.
Qed.

Lemma no_proto_line_catalog_on_own_keys_witness :
  ∃ final,
    ObjectParser.parseStimulusLoop ["image I1 a.png"; "audio A1 b.wav"]
      PlainObject.empty = Ok final
    ∧ PlainObject.prototype final = None.
Proof.
  rewrite (no_proto_line_catalog_on_own_keys ["image I1 a.png"; "audio A1 b.wav"]
             PlainObject.empty).
  - eexists. split; [by vm_compute | reflexivity].
  - intros line s Hin.
    repeat (apply elem_of_cons in Hin as [-> | Hin]; [by vm_compute |]).
    by apply elem_of_nil in Hin.
Defined.

(** ** The whole run: order of the stages *)

Lemma extract_throw (keyword : string) (instructions : list string) (e : Error) :
  extractInstructionsFromSection keyword instructions = Throw e →
  e = SectionNotFound keyword.
Proof.
  unfold extractInstructionsFromSection.
  destruct (scanSection keyword instructions 0 None) as [[s|] [e'|]];
    by intros [= <-].
Qed.

Lemma extract_fails (keyword : string) (instructions : list string) :
  (∀ section, extractInstructionsFromSection keyword instructions ≠ Ok section) →
  extractInstructionsFromSection keyword instructions
  = Throw (SectionNotFound keyword).
Proof.
  intros Hfails.
  destruct (extractInstructionsFromSection keyword instructions) as [section|e] eqn:Hex.
  - by destruct (Hfails section).
  - by rewrite (extract_throw _ _ _ Hex).
Qed.

Lemma resolveChoices_throw (catalog : gmap string Stimulus)
    (identifiers : list string) (e : Error) :
  resolveChoices catalog identifiers = Throw e →
  ∃ unknown, e = UnknownStimulusIdentifier unknown.
Proof.
  induction identifiers as [|identifier rest IH]; simpl; [done |].
  unfold getStimulusByIdentifier.
  destruct (catalog !! identifier); simpl; [| intros [= <-]; eauto].
  destruct (resolveChoices catalog rest) as [others|e']; simpl; [done |].
  intros [= <-]. by apply IH.
Qed.

Lemma parseSequenceInstruction_throw (catalog : gmap string Stimulus)
    (line : string) (e : Error) :
  parseSequenceInstruction catalog line = Throw e →
  ∀ keyword, e ≠ SectionNotFound keyword.
Proof.
  unfold parseSequenceInstruction, choicesOf.
  destruct (split " " line !! 3) as [c|]; simpl; [| by intros [= <-]].
  assert (∀ s, attachFeedback (split " " line !! 8) (split " " line !! 10)
                 (split " " line !! 11) s = Throw e →
               ∀ keyword, e ≠ SectionNotFound keyword) as Hattach.
  { intros s. unfold attachFeedback. repeat case_decide; by intros [= <-]. }
  destruct (decide (c = "n")); simpl; [apply Hattach |].
  destruct (resolveChoices catalog (split "," c)) as [stimuli|e'] eqn:Hresolve;
    simpl; [apply Hattach |].
  intros [= <-]. by apply resolveChoices_throw in Hresolve as [unknown ->].
Qed.

Lemma parseSequenceLoop_throw (catalog : gmap string Stimulus)
    (lines : list string) (buffer : list Sequence) (e : Error) :
  parseSequenceLoop catalog lines buffer = Throw e →
  ∀ keyword, e ≠ SectionNotFound keyword.
Proof.
  revert buffer. induction lines as [|line rest IH]; intros buffer; simpl; [done |].
  destruct (parseSequenceInstruction catalog line) as [step|e'] eqn:Hline; simpl.
  - apply IH.
  - intros [= <-]. by apply (parseSequenceInstruction_throw _ _ _ Hline).
Qed.

(** X20. The run fails fast, stage by stage.  It throws the section error
    for a keyword exactly when that keyword is the first of [Descriptions],
    [PreSeq], [MainSeq], [PostSeq], in this order, whose section is not
    extracted, whatever the lines of the sections hold; and when the four
    sections are extracted, an error of the stimulus section is the one
    thrown, whatever the sequence sections hold. *)
Theorem execute_fails_fast (this : Parser) :
  (∀ keyword,
     execute this = Throw (SectionNotFound keyword)
     ↔ ∃ earlier later,
         sectionKeywords = earlier ++ keyword :: later
         ∧ (∀ k, k ∈ earlier →
              ∃ section,
                extractInstructionsFromSection k (instructions this) = Ok section)
         ∧ ∀ section,
             extractInstructionsFromSection keyword (instructions this)
             ≠ Ok section)
  ∧ (∀ this' e,
       splitSection this = Ok this' →
       parseStimulusLoop (stimulusInstructions this') (stimulus this') = Throw e →
       execute this = Throw e).
Proof.
  split.
  - intros keyword. split.
    + unfold execute, splitSection, parseStimulus, parseSequence, sectionKeywords.
      destruct (extractInstructionsFromSection "Descriptions" (instructions this))
        as [s1|e1] eqn:H1; simpl.
      2:{ pose proof (extract_throw _ _ _ H1) as ->. intros [= <-].
          exists [], ["PreSeq"; "MainSeq"; "PostSeq"]. split; [done |].
          split; [| intros section; congruence].
          intros k Hk. by apply elem_of_nil in Hk. }
      destruct (extractInstructionsFromSection "PreSeq" (instructions this))
        as [s2|e2] eqn:H2; simpl.
      2:{ pose proof (extract_throw _ _ _ H2) as ->. intros [= <-].
          exists ["Descriptions"], ["MainSeq"; "PostSeq"]. split; [done |].
          split; [| intros section; congruence].
          intros k Hk. repeat (apply elem_of_cons in Hk as [-> | Hk]; [eauto |]).
          by apply elem_of_nil in Hk. }
      destruct (extractInstructionsFromSection "MainSeq" (instructions this))
        as [s3|e3] eqn:H3; simpl.
      2:{ pose proof (extract_throw _ _ _ H3) as ->. intros [= <-].
          exists ["Descriptions"; "PreSeq"], ["PostSeq"]. split; [done |].
          split; [| intros section; congruence].
          intros k Hk. repeat (apply elem_of_cons in Hk as [-> | Hk]; [eauto |]).
          by apply elem_of_nil in Hk. }
      destruct (extractInstructionsFromSection "PostSeq" (instructions this))
        as [s4|e4] eqn:H4; simpl.
      2:{ pose proof (extract_throw _ _ _ H4) as ->. intros [= <-].
          exists ["Descriptions"; "PreSeq"; "MainSeq"], []. split; [done |].
          split; [| intros section; congruence].
          intros k Hk. repeat (apply elem_of_cons in Hk as [-> | Hk]; [eauto |]).
          by apply elem_of_nil in Hk. }
      destruct (parseStimulusLoop s1 (stimulus this)) as [catalog|e] eqn:Hcatalog;
        simpl.
      2:{ intros [= ->]. by apply parseStimulusLoop_throw in Hcatalog as [tag ?]. }
      destruct (parseSequenceLoop catalog s2 []) as [pre|e] eqn:Hpre; simpl.
      2:{ intros [= ->]. by destruct (parseSequenceLoop_throw _ _ _ _ Hpre keyword). }
      destruct (parseSequenceLoop catalog s3 []) as [main|e] eqn:Hmain; simpl.
      2:{ intros [= ->]. by destruct (parseSequenceLoop_throw _ _ _ _ Hmain keyword). }
      destruct (parseSequenceLoop catalog s4 []) as [post|e] eqn:Hpost; simpl.
      2:{ intros [= ->]. by destruct (parseSequenceLoop_throw _ _ _ _ Hpost keyword). }
      done.
    + intros (earlier & later & Hcut & Hearlier & Hfails).
      apply extract_fails in Hfails.
      unfold execute, splitSection, sectionKeywords in *.
      destruct earlier as [|k1 [|k2 [|k3 [|k4 rest]]]]; simpl in Hcut.
      * injection Hcut as <- _. by rewrite Hfails.
      * injection Hcut as <- <- _.
        destruct (Hearlier "Descriptions") as [s1 ->]; [listed |].
        simpl. by rewrite Hfails.
      * injection Hcut as <- <- <- _.
        destruct (Hearlier "Descriptions") as [s1 ->]; [listed |].
        destruct (Hearlier "PreSeq") as [s2 ->]; [listed |].
        simpl. by rewrite Hfails.
      * injection Hcut as <- <- <- <- _.
        destruct (Hearlier "Descriptions") as [s1 ->]; [listed |].
        destruct (Hearlier "PreSeq") as [s2 ->]; [listed |].
        destruct (Hearlier "MainSeq") as [s3 ->]; [listed |].
        simpl. by rewrite Hfails.
      * injection Hcut as _ _ _ _ Hrest. by destruct rest.
  - intros this' e Hsplit Hthrow. unfold execute, parseStimulus.
    rewrite Hsplit. simpl. by rewrite Hthrow.
Qed.

Lemma execute_fails_fast_witness :
  execute (mkParser ["[Descriptions]"; "unknown line"; "[EndDescriptions]";
                     "[EndPreSeq]"; "[PreSeq]"; "[EndPreSeq]"]
             [] [] [] [] ∅ ∅)
  = Throw (SectionNotFound "PreSeq").
Proof.
  apply (proj1 (execute_fails_fast _)).
  exists ["Descriptions"], ["MainSeq"; "PostSeq"]. split; [reflexivity |].
  split; [| intros section; by vm_compute].
  intros k Hk. apply elem_of_cons in Hk as [-> | Hk];
    [by eexists | by apply elem_of_nil in Hk].
Defined.

(** ** The older class: sequence lines and stimulus lines *)

Section LegacySequences.

Context {Entity : Type}.
Implicit Types (catalog : gmap string Entity)
  (sequence : LegacyParser.Sequence Entity).

Lemma legacy_attachFeedback_illegal (feedbackType feedback1 feedback2 : token)
    sequence :
  feedbackType ∉ feedbackTypes →
  LegacyParser.attachFeedback feedbackType feedback1 feedback2 sequence
  = Throw (InvalidFeedbackType feedbackType).
Proof.
  unfold LegacyParser.attachFeedback, feedbackTypes. intros Hnot.
  repeat (case_decide; [subst; exfalso; apply Hnot; listed |]). done.
Qed.

Lemma legacy_attachFeedback_legal (feedbackType feedback1 feedback2 : token)
    sequence :
  feedbackType ∈ feedbackTypes →
  ∃ attached,
    LegacyParser.attachFeedback feedbackType feedback1 feedback2 sequence
    = Ok attached
    ∧ LegacyParser.choices attached = LegacyParser.choices sequence.
Proof.
  unfold LegacyParser.attachFeedback, feedbackTypes. intros Hin.
  repeat (apply elem_of_cons in Hin as [-> | Hin];
          [repeat (case_decide; [by eauto |]); done |]).
  by apply elem_of_nil in Hin.
Qed.

(** X22. A sequence line decodes in the older class exactly when it has a
    fourth token and its ninth token is one of the four feedback types.  Its
    choices then hold one value for each identifier, in their order, and
    that value is the catalog entry wherever the identifier is a key of the
    catalog; no line ever throws the unknown-identifier error. *)
Theorem legacy_sequence_line catalog (line : string) :
  ((∃ sequence, LegacyParser.parseSequenceInstruction catalog line = Ok sequence)
   ↔ is_Some (split " " line !! 3) ∧ split " " line !! 8 ∈ feedbackTypes)
  ∧ (∀ sequence c,
       LegacyParser.parseSequenceInstruction catalog line = Ok sequence →
       split " " line !! 3 = Some c →
       c ≠ "n" →
       ∃ values,
         LegacyParser.choices sequence = LegacyParser.ChoiceList values
         ∧ Forall2 (λ identifier value,
                      ∀ entry, catalog !! identifier = Some entry →
                               value = Some entry)
             (split "," c) values)
  ∧ (∀ identifier,
       LegacyParser.parseSequenceInstruction catalog line
       ≠ Throw (UnknownStimulusIdentifier identifier)).
Proof.
  unfold LegacyParser.parseSequenceInstruction, LegacyParser.choicesOf.
  destruct (split " " line !! 3) as [c|]; simpl.
  2:{ split; [| by split].
      split; [by intros [? ?] | by intros [[? ?] _]]. }
  set (resolved := if decide (c = "n") then _ else _).
  assert (∃ r, resolved = mret r
               ∧ (c ≠ "n" → r = LegacyParser.ChoiceList
                                  ((λ identifier, catalog !! identifier)
                                     <$> split "," c))) as (r & -> & Hr).
  { unfold resolved. destruct (decide (c = "n")); eexists; (split; [done |]);
      [by intros ? | by intros _]. }
  simpl.
  destruct (decide (split " " line !! 8 ∈ feedbackTypes)) as [Hlegal|Hnot].
  - edestruct legacy_attachFeedback_legal as (attached & Hat & Hchoices);
      [exact Hlegal |]. rewrite Hat. split; [| split].
    + split; [by intros _; split; [eexists |] | eauto].
    + intros sequence c' [= <-] [= <-] Hne. rewrite Hchoices. simpl.
      eexists. split; [by apply Hr |].
      apply Forall2_fmap_r, Forall_Forall2_diag, Forall_forall.
      intros identifier _ entry. by intros ->.
    + done.
  - rewrite legacy_attachFeedback_illegal by done. split; [| split].
    + split; [by intros [? ?] | by intros [_ ?]].
    + done.
    + done.
Qed.

End LegacySequences.

Lemma legacy_sequence_line_witness :
  ∃ sequence,
    LegacyParser.parseSequenceInstruction ({["I1" := 7]} : gmap string nat)
      "0 s1 inf I1 100 1 0 n n n n n y"
    = Ok sequence
    ∧ LegacyParser.choices sequence = LegacyParser.ChoiceList [Some 7].
Proof.
  destruct (legacy_sequence_line ({["I1" := 7]} : gmap string nat)
              "0 s1 inf I1 100 1 0 n n n n n y") as (Hiff & Hchoices & _).
  destruct (proj2 Hiff) as [sequence Hline];
    [split; [by eexists | vm_compute; listed] |].
  exists sequence. split; [done |].
  destruct (Hchoices sequence "I1" Hline eq_refl ltac:(discriminate))
    as (values & -> & Hvalues).
  apply Forall2_cons_inv_l in Hvalues as (value & rest & Hvalue & Hrest & ->).
  apply Forall2_nil_inv_l in Hrest as ->.
  by rewrite (Hvalue 7 eq_refl).
Defined.

Lemma resolveChoices_lookups (catalog : gmap string Stimulus)
    (identifiers : list string) (stimuli : list Stimulus) :
  resolveChoices catalog identifiers = Ok stimuli →
  (λ identifier, catalog !! identifier) <$> identifiers = Some <$> stimuli.
Proof.
  revert stimuli. induction identifiers as [|identifier rest IH]; intros stimuli; simpl.
  - by intros [= <-].
  - unfold getStimulusByIdentifier.
    destruct (catalog !! identifier) as [found|] eqn:Hfound; simpl; [| done].
    destruct (resolveChoices catalog rest) as [others|e]; simpl; [| done].
    intros [= <-]. simpl. f_equal. by apply IH.
Qed.

(** X23. Every sequence line [Parser] decodes is decoded by the older class
    too, with the same feedback properties and the same other fields; its
    choices are the same entries, its stimulus duration is the same unless
    the third token is [n], which only [Parser] keeps as a sentinel. *)
Theorem legacy_agrees_on_decoded_lines (catalog : gmap string Stimulus)
    (line : string) (sequence : Sequence) :
  parseSequenceInstruction catalog line = Ok sequence →
  ∃ older,
    LegacyParser.parseSequenceInstruction catalog line = Ok older
    ∧ LegacyParser.feedback1 older = feedback1 sequence
    ∧ LegacyParser.feedback2 older = feedback2 sequence
    ∧ LegacyParser.feedbackType older = feedbackType sequence
    ∧ LegacyParser.choices older
      = match choices sequence with
        | NoChoices => LegacyParser.NoChoices
        | ChoiceList stimuli => LegacyParser.ChoiceList (Some <$> stimuli)
        end
    ∧ (LegacyParser.onSetTime older, LegacyParser.identifier older,
       LegacyParser.choiceDuration older, LegacyParser.answer older,
       LegacyParser.choiceOnsetRelativeToSim older,
       LegacyParser.reactionTime older, LegacyParser.feedbackDuration older,
       LegacyParser.test older)
      = (onSetTime sequence, identifier sequence, choiceDuration sequence,
         answer sequence, choiceOnsetRelativeToSim sequence,
         reactionTime sequence, feedbackDuration sequence, test sequence)
    ∧ (split " " line !! 2 ≠ Some "n" →
       LegacyParser.stimulusDuration older = stimulusDuration sequence).
Proof.
  unfold parseSequenceInstruction, LegacyParser.parseSequenceInstruction,
    choicesOf, LegacyParser.choicesOf.
  destruct (split " " line !! 3) as [c|]; [| done].
  assert (∀ x, x ≠ Some "n" → LegacyParser.stimulusDurationOf x = timingOf x)
    as Hduration.
  { intros x Hx. unfold LegacyParser.stimulusDurationOf, timingOf.
    by repeat case_decide. }
  destruct (decide (c = "n")) as [->|Hne]; simpl.
  - unfold attachFeedback, LegacyParser.attachFeedback.
    repeat case_decide; intros [= <-]; eexists; (split; [done |]); simpl;
      repeat (split; [done |]); apply Hduration.
  - destruct (resolveChoices catalog (split "," c)) as [stimuli|e] eqn:Hresolve;
      simpl; [| done].
    apply resolveChoices_lookups in Hresolve.
    unfold LegacyParser.getStimulusByIdentifier. rewrite Hresolve.
    unfold attachFeedback, LegacyParser.attachFeedback.
    repeat case_decide; intros [= <-]; eexists; (split; [done |]); simpl;
      repeat (split; [done |]); apply Hduration.
Qed.

Lemma legacy_agrees_on_decoded_lines_witness :
  ∃ older,
    LegacyParser.parseSequenceInstruction
      ({["I1" := ImageStimulus "image" (Some "a.png") false]}
         : gmap string Stimulus)
      "0 s1 inf I1 100 1 0 n a n F1 F2 y"
    = Ok older
    ∧ LegacyParser.feedback1 older = Some (Some "F1").
Proof.
  destruct (parseSequenceInstruction
              {["I1" := ImageStimulus "image" (Some "a.png") false]}
              "0 s1 inf I1 100 1 0 n a n F1 F2 y") as [sequence|e] eqn:Hline;
    [| by vm_compute in Hline].
  destruct (legacy_agrees_on_decoded_lines _ _ _ Hline)
    as (older & Holder & Hf1 & _).
  exists older. split; [done |]. rewrite Hf1.
  vm_compute in Hline. by injection Hline as <-.
Defined.

(** X24. In the older class an [audio] line stores the third token as
    [filePath], and a [video] line is rejected with the stimulus-type error:
    its [switch] has no label for [video]. *)
Theorem legacy_media_lines :
  (∀ identifier filePath,
     Forall (wellFormed space doubleQuote) [Bare identifier; Bare filePath] →
     LegacyParser.parseStimulusInstruction
       (writeLine [Bare "audio"; Bare identifier; Bare filePath])
     = LegacyParser.Returned
         (identifier,
          LegacyParser.AudioObject (Some "audio") (Some identifier)
            (Some filePath)))
  ∧ (∀ line,
       splitWithEscapedCharacter line space doubleQuote !! 0 = Some "video" →
       LegacyParser.parseStimulusInstruction line
       = LegacyParser.Thrown (InvalidStimulusType (Some "video"))).
Proof.
  split.
  - intros identifier filePath Hall.
    unfold LegacyParser.parseStimulusInstruction.
    rewrite stimulus_line_tokens; [| done | by constructor].
    unfold LegacyParser.buildStimulusObject. by simpl.
  - intros line Hvideo.
    unfold LegacyParser.parseStimulusInstruction,
      LegacyParser.buildStimulusObject.
    rewrite Hvideo. by repeat case_decide.
Qed.

Lemma legacy_media_lines_witness :
  LegacyParser.parseStimulusInstruction
    (writeLine [Bare "audio"; Bare "A1"; Bare "snd/beep.wav"])
  = LegacyParser.Returned
      ("A1",
       LegacyParser.AudioObject (Some "audio") (Some "A1") (Some "snd/beep.wav"))
  ∧ LegacyParser.parseStimulusInstruction "video V1 mov/a.mp4"
    = LegacyParser.Thrown (InvalidStimulusType (Some "video")).
Proof.
  split.
  - apply (proj1 legacy_media_lines "A1" "snd/beep.wav"). well_formed_fields.
  - apply (proj2 legacy_media_lines "video V1 mov/a.mp4"). reflexivity.
Defined.

(** X25. In the older class a [text] or [text_file] line with fewer than five
    tokens throws a [ReferenceError]; with five tokens or more it stores the
    fourth and fifth tokens as they stand, so a font size or font color
    written [n] stays the string [n]. *)
Theorem legacy_text_lines (line : string) (tag : string) :
  tag = "text" ∨ tag = "text_file" →
  splitWithEscapedCharacter line space doubleQuote !! 0 = Some tag →
  (length (splitWithEscapedCharacter line space doubleQuote) ≤ 4 →
   LegacyParser.parseStimulusInstruction line = LegacyParser.ReferenceError)
  ∧ (∀ fontSize fontColor,
       splitWithEscapedCharacter line space doubleQuote !! 3 = Some fontSize →
       splitWithEscapedCharacter line space doubleQuote !! 4 = Some fontColor →
       LegacyParser.parseStimulusInstruction line
       = LegacyParser.Returned
           (propertyKey (splitWithEscapedCharacter line space doubleQuote !! 1),
            (if decide (tag = "text") then LegacyParser.TextObject
             else LegacyParser.TextFileObject)
              (Some tag)
              (splitWithEscapedCharacter line space doubleQuote !! 1)
              (splitWithEscapedCharacter line space doubleQuote !! 2)
              fontSize fontColor)).
Proof.
  intros Htag Hfirst.
  unfold LegacyParser.parseStimulusInstruction, LegacyParser.buildStimulusObject.
  rewrite Hfirst. split.
  - intros Hshort. rewrite (lookup_ge_None_2 _ 4) by lia.
    destruct Htag as [-> | ->]; repeat (case_decide; [done || congruence |]);
      try (case_decide; [| congruence]);
      by destruct (splitWithEscapedCharacter line space doubleQuote !! 3).
  - intros fontSize fontColor -> ->.
    destruct Htag as [-> | ->]; repeat (case_decide; [done || congruence |]);
      try (case_decide; [| congruence]); done.
Qed.

Lemma legacy_text_lines_witness :
  LegacyParser.parseStimulusInstruction "text I2 hello n"
  = LegacyParser.ReferenceError
  ∧ LegacyParser.parseStimulusInstruction "text I2 hello n n"
    = LegacyParser.Returned
        ("I2", LegacyParser.TextObject (Some "text") (Some "I2") (Some "hello")
                 "n" "n").
Proof.
  split.
  - apply (proj1 (legacy_text_lines "text I2 hello n" "text"
                    ltac:(by left) eq_refl)).
    vm_compute. lia.
  - apply (proj2 (legacy_text_lines "text I2 hello n n" "text"
                    ltac:(by left) eq_refl) "n" "n"); reflexivity.
Defined.
